(** * Lazy tensor views: deferred update tracking

    A shallow embedding of [torch/csrc/lazy/core/lazy_view.cpp] (the
    [ViewInfo] descriptors, [ApplyViewInfo], [ApplyUpdate], [Alias] and
    [LazyView]) and of the [Scalar] IR node header, together with the
    properties of the alias/view engine that the specification states.

    IR values are symbolic: [ReuseOrMakeNode<T>(args...)] yields the node of
    class [T] built from [args], and two calls with equal arguments yield
    the same node.  A node is therefore modelled by the term that names its
    class and its constructor arguments.

    Also embedded: the reuse tests of the [SelectViewUpdate] and
    [AsStridedViewUpdate] nodes, and the dimension loop of the CPU scatter
    and gather kernels ([_cpu_scatter_gather_dim_loop]) over buffers of
    cells. *)

From Stdlib Require Import ZArith NArith List String Lia.
From stdpp Require Import base decidable option list gmap.
Import ListNotations.

Local Open Scope Z_scope.

(** ** Outcomes

    Nothing in this code returns an error value.  A call either returns or
    leaves by a failed [TORCH_CHECK] / [TORCH_INTERNAL_ASSERT]; reading
    through a disengaged optional, a null pointer or past the end of a
    vector has no defined behaviour and is kept apart as [BadAccess]. *)

Inductive Failure : Type :=
| CheckFailed
| InternalAssertFailed (msg : string) (info : option Z)
| BadAccess.

Inductive Result (A : Type) : Type :=
| Ok (a : A)
| Fatal (f : Failure).

Arguments Ok {A} a.
Arguments Fatal {A} f.

Definition bind {A B : Type} (m : Result A) (k : A -> Result B) : Result B :=
  match m with
  | Ok a => k a
  | Fatal f => Fatal f
  end.

Notation "'let*' x ':=' m 'in' k" := (bind m (fun x => k))
  (at level 10, x pattern, m at level 100, k at level 200).

Definition TORCH_CHECK (cond : bool) : Result unit :=
  if cond then Ok tt else Fatal CheckFailed.

Definition is_Ok {A : Type} (r : Result A) : Prop :=
  match r with Ok _ => True | Fatal _ => False end.

(** [v[i]] on a [std::vector] and [v.back()]. *)
Definition vector_at {A : Type} (v : list A) (i : nat) : Result A :=
  match v !! i with
  | Some x => Ok x
  | None => Fatal BadAccess
  end.

Definition vector_back {A : Type} (v : list A) : Result A :=
  match last v with
  | Some x => Ok x
  | None => Fatal BadAccess
  end.

(** [o->field] on an optional. *)
Definition deref {A : Type} (o : option A) : Result A :=
  match o with
  | Some x => Ok x
  | None => Fatal BadAccess
  end.

(** ** Shapes and view descriptors *)

Record Shape : Type := mkShape {
  scalar_type : N;
  sizes : list Z
}.

Definition Shape_dim (s : Shape) : nat := length (sizes s).

Record SelectInfo : Type := mkSelectInfo {
  sel_dim : Z;
  sel_start : Z;
  sel_end : Z;
  sel_stride : Z
}.

Record AsStridedInfo : Type := mkAsStridedInfo {
  as_stride : list Z;
  as_offset : Z
}.

Record DiagonalInfo : Type := mkDiagonalInfo {
  diag_offset : Z;
  diag_dim1 : Z;
  diag_dim2 : Z
}.

(** Modelled from the spec: the enumeration [ViewInfo::Type] is declared in
    [lazy_view.h], which is not part of the sources at hand.  The ten kinds
    are the ones of the specification's table (and of the two [switch]
    statements); [kOther raw] stands for any other value an object of the
    enumeration type holds, the one the [default] branches are written
    for, with [raw] what [GetEnumValue] reports for it. *)
Inductive ViewInfo_Type : Type :=
| kSelect
| kNarrow
| kNoOp
| kPermute
| kReshape
| kResize
| kSqueeze
| kUnsqueeze
| kAsStrided
| kDiagonal
| kOther (raw : Z).

Record ViewInfo : Type := mkViewInfo {
  view_type : ViewInfo_Type;
  shape : Shape;
  indices : list Z;
  source_shape : Shape;
  squeeze_index : Z;
  permutation : list Z;
  select : option SelectInfo;
  as_strided : option AsStridedInfo;
  diagonal : option DiagonalInfo
}.

#[global] Instance Shape_eq_dec : EqDecision Shape.
Proof. solve_decision. Defined.
#[global] Instance SelectInfo_eq_dec : EqDecision SelectInfo.
Proof. solve_decision. Defined.
#[global] Instance AsStridedInfo_eq_dec : EqDecision AsStridedInfo.
Proof. solve_decision. Defined.
#[global] Instance DiagonalInfo_eq_dec : EqDecision DiagonalInfo.
Proof. solve_decision. Defined.
#[global] Instance ViewInfo_Type_eq_dec : EqDecision ViewInfo_Type.
Proof. solve_decision. Defined.

(** Modelled from the spec: [ViewInfo::operator==] is declared in
    [lazy_view.h]; descriptor equality is structural (same kind, same
    shapes, same parameters). *)
#[global] Instance ViewInfo_eq_dec : EqDecision ViewInfo.
Proof. solve_decision. Defined.

(** What the view-op classes and [permutation_util.h] contribute: the shape
    of a permuted, selected or diagonal view, the inverse of a permutation,
    and the value [squeeze_index] has in a descriptor whose constructor
    does not set it.  Their code is elsewhere; they are taken as given and
    assumed to return. *)
Class ViewOps : Type := {
  MakePermuteShape : Shape -> list Z -> Shape;
  MakeSelectShape : Shape -> Z -> Z -> Z -> Z -> Shape;
  MakeDiagonalShape : Shape -> Z -> Z -> Z -> Shape;
  InversePermutation : list Z -> list Z;
  squeeze_index_unset : Z
}.

(** ** IR values *)

Inductive OpKind : Type :=
| aten_select
| aten_narrow
| aten_permute
| aten_view
| aten_resize
| aten_squeeze
| aten_unsqueeze
| aten_as_strided
| aten_diagonal
| ltc_select_view_update
| ltc_narrow_view_update
| ltc_as_strided_view_update
| ltc_diagonal_view_update.

(** [NullValue] is a default-constructed [Value]; [External] is a value made
    outside this file (device data, the result of some other operation). *)
Inductive Value : Type :=
| NullValue
| External (id : N)
| Select (op : OpKind) (input : Value) (dim start end_ stride : Z)
| Narrow (op : OpKind) (input : Value) (base_indices sizes : list Z)
| Permute (op : OpKind) (input : Value) (dims : list Z)
| View (op : OpKind) (input : Value) (output_size : list Z)
| Resize (op : OpKind) (input : Value) (size : list Z)
| Squeeze (op : OpKind) (input : Value) (dim : Z)
| Unsqueeze (op : OpKind) (input : Value) (dim : Z)
| AsStrided (op : OpKind) (input : Value) (size stride : list Z) (offset : Z)
| Diagonal (op : OpKind) (input : Value) (offset dim1 dim2 : Z)
| SelectViewUpdate (op : OpKind) (target source : Value)
    (dim start end_ stride : Z)
| NarrowViewUpdate (op : OpKind) (target source : Value)
    (base_indices : list Z)
| AsStridedViewUpdate (op : OpKind) (target input : Value)
    (size stride : list Z) (offset : Z)
| DiagonalViewUpdate (op : OpKind) (target input : Value)
    (offset dim1 dim2 : Z).

(** [TORCH_INTERNAL_ASSERT(false, "Invalid view type: ", GetEnumValue(t))]. *)
Definition invalid_view_type {A : Type} (raw : Z) : Result A :=
  Fatal (InternalAssertFailed "Invalid view type: " (Some raw)).

Section WithViewOps.

Context `{ops : ViewOps}.

(** ** The [ViewInfo] constructors *)

Definition ViewInfo_plain (view_type : ViewInfo_Type) (shape source_shape : Shape)
  : Result ViewInfo :=
  Ok {| view_type := view_type;
        shape := shape;
        indices := repeat 0 (Shape_dim source_shape);
        source_shape := source_shape;
        squeeze_index := squeeze_index_unset;
        permutation := [];
        select := None;
        as_strided := None;
        diagonal := None |}.

Definition ViewInfo_squeeze (view_type : ViewInfo_Type) (shape source_shape : Shape)
    (sqi : Z) : Result ViewInfo :=
  let this :=
    {| view_type := view_type;
       shape := shape;
       indices := [];
       source_shape := source_shape;
       squeeze_index := sqi;
       permutation := [];
       select := None;
       as_strided := None;
       diagonal := None |} in
  let* _ := TORCH_CHECK (bool_decide (view_type = kSqueeze)) in
  Ok this.

Definition ViewInfo_permute (view_type : ViewInfo_Type) (source_shape : Shape)
    (permutation : list Z) : Result ViewInfo :=
  let this :=
    {| view_type := view_type;
       shape := MakePermuteShape source_shape permutation;
       indices := [];
       source_shape := source_shape;
       squeeze_index := squeeze_index_unset;
       permutation := permutation;
       select := None;
       as_strided := None;
       diagonal := None |} in
  let* _ := TORCH_CHECK (bool_decide (view_type = kPermute)) in
  Ok this.

Definition ViewInfo_select (view_type : ViewInfo_Type) (source_shape : Shape)
    (select : SelectInfo) : Result ViewInfo :=
  let this :=
    {| view_type := view_type;
       shape := MakeSelectShape source_shape (sel_dim select)
                  (sel_start select) (sel_end select) (sel_stride select);
       indices := [];
       source_shape := source_shape;
       squeeze_index := squeeze_index_unset;
       permutation := [];
       select := Some select;
       as_strided := None;
       diagonal := None |} in
  let* _ := TORCH_CHECK (bool_decide (view_type = kSelect)) in
  Ok this.

Definition ViewInfo_as_strided (view_type : ViewInfo_Type)
    (shape source_shape : Shape) (as_strided : AsStridedInfo)
  : Result ViewInfo :=
  let this :=
    {| view_type := view_type;
       shape := shape;
       indices := [];
       source_shape := source_shape;
       squeeze_index := squeeze_index_unset;
       permutation := [];
       select := None;
       as_strided := Some as_strided;
       diagonal := None |} in
  let* _ := TORCH_CHECK (bool_decide (view_type = kAsStrided)) in
  Ok this.

Definition ViewInfo_diagonal (view_type : ViewInfo_Type) (source_shape : Shape)
    (diagonal : DiagonalInfo) : Result ViewInfo :=
  let this :=
    {| view_type := view_type;
       shape := MakeDiagonalShape source_shape (diag_offset diagonal)
                  (diag_dim1 diagonal) (diag_dim2 diagonal);
       indices := [];
       source_shape := source_shape;
       squeeze_index := squeeze_index_unset;
       permutation := [];
       select := None;
       as_strided := None;
       diagonal := Some diagonal |} in
  let* _ := TORCH_CHECK (bool_decide (view_type = kDiagonal)) in
  Ok this.

(** ** Forward application of one descriptor *)

Definition ApplyViewInfo (ir_value : Value) (view_info : ViewInfo)
  : Result Value :=
  match view_type view_info with
  | kSelect =>
      let* s := deref (select view_info) in
      Ok (Select aten_select ir_value
            (sel_dim s) (sel_start s) (sel_end s) (sel_stride s))
  | kNarrow =>
      Ok (Narrow aten_narrow ir_value
            (indices view_info) (sizes (shape view_info)))
  | kNoOp => Ok ir_value
  | kPermute =>
      Ok (Permute aten_permute ir_value (permutation view_info))
  | kReshape =>
      Ok (View aten_view ir_value (sizes (shape view_info)))
  | kResize =>
      Ok (Resize aten_resize ir_value (sizes (shape view_info)))
  | kSqueeze =>
      Ok (Squeeze aten_squeeze ir_value (squeeze_index view_info))
  | kUnsqueeze =>
      Ok (Unsqueeze aten_unsqueeze ir_value (squeeze_index view_info))
  | kAsStrided =>
      let* a := deref (as_strided view_info) in
      Ok (AsStrided aten_as_strided ir_value
            (sizes (shape view_info)) (as_stride a) (as_offset a))
  | kDiagonal =>
      let* d := deref (diagonal view_info) in
      Ok (Diagonal aten_diagonal ir_value
            (diag_offset d) (diag_dim1 d) (diag_dim2 d))
  | kOther raw => invalid_view_type raw
  end.

(** ** Replaying one update: [ApplyUpdate] *)

Record UpdateData : Type := mkUpdateData {
  ir_value : Value;
  view_infos : list ViewInfo
}.

(** The first loop: [tmp_values.push_back(ApplyViewInfo(tmp_values.back(),
    view_info))] for each descriptor in order. *)
Fixpoint forward_loop (tmp_values : list Value) (view_infos : list ViewInfo)
  : Result (list Value) :=
  match view_infos with
  | [] => Ok tmp_values
  | view_info :: rest =>
      let* back := vector_back tmp_values in
      let* v := ApplyViewInfo back view_info in
      forward_loop (tmp_values ++ [v]) rest
  end.

(** The body of the second loop at index [i] (so [i - 1] is the position of
    [view_info] in the chain): the [switch] on the kind.  [ir_value] is
    [ApplyUpdate]'s first parameter, [result] the running value. *)
Definition backward_step (ir_value : Value) (tmp_values : list Value)
    (i : nat) (view_info : ViewInfo) (result : Value) : Result Value :=
  match view_type view_info with
  | kSelect =>
      let* target := vector_at tmp_values (i - 1) in
      let* s := deref (select view_info) in
      Ok (SelectViewUpdate ltc_select_view_update target result
            (sel_dim s) (sel_start s) (sel_end s) (sel_stride s))
  | kNarrow =>
      let* target := vector_at tmp_values (i - 1) in
      Ok (NarrowViewUpdate ltc_narrow_view_update target result
            (indices view_info))
  | kNoOp => Ok result
  | kPermute =>
      Ok (Permute aten_permute result
            (InversePermutation (permutation view_info)))
  | kReshape =>
      Ok (View aten_view result (sizes (source_shape view_info)))
  | kResize =>
      Ok (Resize aten_resize result (sizes (source_shape view_info)))
  | kSqueeze =>
      Ok (Unsqueeze aten_unsqueeze ir_value (squeeze_index view_info))
  | kUnsqueeze =>
      Ok (Squeeze aten_squeeze ir_value (squeeze_index view_info))
  | kAsStrided =>
      let* target := vector_at tmp_values (i - 1) in
      let* a := deref (as_strided view_info) in
      Ok (AsStridedViewUpdate ltc_as_strided_view_update target result
            (sizes (source_shape view_info)) (as_stride a) (as_offset a))
  | kDiagonal =>
      let* target := vector_at tmp_values (i - 1) in
      let* d := deref (diagonal view_info) in
      Ok (DiagonalViewUpdate ltc_diagonal_view_update target result
            (diag_offset d) (diag_dim1 d) (diag_dim2 d))
  | kOther raw => invalid_view_type raw
  end.

(** [for (size_t i = ...; i > 0; --i)]: the loop from [i] down to 1. *)
Fixpoint backward_loop (ir_value : Value) (view_infos : list ViewInfo)
    (tmp_values : list Value) (i : nat) (result : Value) : Result Value :=
  match i with
  | O => Ok result
  | S j =>
      let* view_info := vector_at view_infos (i - 1) in
      let* result' := backward_step ir_value tmp_values i view_info result in
      backward_loop ir_value view_infos tmp_values j result'
  end.

Definition ApplyUpdate (ir_value0 : Value) (update_data : UpdateData)
  : Result Value :=
  let* tmp_values := forward_loop [ir_value0] (view_infos update_data) in
  backward_loop ir_value0 (view_infos update_data) tmp_values
    (length (view_infos update_data)) (ir_value update_data).

(** ** [Alias] *)

(** Modelled from the spec: the members of [Alias] are declared in
    [lazy_view.h]; [generation_] is the specification's monotonically
    increasing counter, a natural number. *)
Record Alias : Type := mkAlias {
  root_ir_value_ : Value;
  updates_ : list UpdateData;
  generation_ : N
}.

Definition Alias_generation (a : Alias) : N := generation_ a.

(** [updates_.back().ir_value = ir_value]: the last element is overwritten
    where it stands. *)
Definition set_back_ir_value (updates : list UpdateData) (v : Value)
  : list UpdateData :=
  alter (fun u => {| ir_value := v; view_infos := view_infos u |})
        (length updates - 1)%nat updates.

Definition Alias_Update (a : Alias) (v : Value) (chain : list ViewInfo)
  : Alias :=
  let coalesce :=
    match last (updates_ a) with
    | Some back => bool_decide (view_infos back = chain)
    | None => false
    end in
  {| root_ir_value_ := root_ir_value_ a;
     updates_ :=
       if coalesce then set_back_ir_value (updates_ a) v
       else updates_ a ++ [{| ir_value := v; view_infos := chain |}];
     generation_ := (generation_ a + 1)%N |}.

(** [for (auto& update_data : updates_) root_ir_value_ = ApplyUpdate(...)]. *)
Fixpoint sync_loop (root : Value) (updates : list UpdateData)
  : Result Value :=
  match updates with
  | [] => Ok root
  | update_data :: rest =>
      let* root' := ApplyUpdate root update_data in
      sync_loop root' rest
  end.

Definition Alias_SyncUpdateOperations (a : Alias) : Result (Value * Alias) :=
  let* root := sync_loop (root_ir_value_ a) (updates_ a) in
  Ok (root,
      {| root_ir_value_ := root;
         updates_ := [];
         generation_ := generation_ a |}).

(** ** [LazyView]

    Views hold a [std::shared_ptr<Alias>]: several views point at one
    [Alias] object.  The aliases live in a store keyed by address, a view
    holds the address, and every method that goes through [alias_] reads or
    writes the store at that address. *)

Record LazyView : Type := mkLazyView {
  view_infos_ : list ViewInfo;
  shape_ : Shape;
  alias_ : N;
  ir_value_ : Value;
  view_generation_ : N
}.

(** Modelled from the spec: the default member initialisers of [ir_value_]
    and [generation_] are in [lazy_view.h]; a new view has no cached value
    and a cached generation of 0. *)
Definition LazyView_single (shape : Shape) (alias : N) (view_info : ViewInfo)
  : LazyView :=
  {| view_infos_ := [] ++ [view_info];
     shape_ := shape;
     alias_ := alias;
     ir_value_ := NullValue;
     view_generation_ := 0%N |}.

Definition LazyView_chain (shape : Shape) (alias : N)
    (view_infos : list ViewInfo) : LazyView :=
  {| view_infos_ := view_infos;
     shape_ := shape;
     alias_ := alias;
     ir_value_ := NullValue;
     view_generation_ := 0%N |}.

(** [Value::operator bool]: the value has a node. *)
Definition Value_bool (v : Value) : bool :=
  match v with
  | NullValue => false
  | _ => true
  end.

(** Modelled from the spec: [IsUpToDate] is defined in [lazy_view.h].  A
    view starts out stale, with no cached value, and becomes fresh by being
    resolved; a view with a cached value is up-to-date iff its cached
    generation equals the alias's generation.  [ir_value_] is a [Value],
    so "no cached value" is the null [Value]. *)
Definition IsUpToDate (v : LazyView) (a : Alias) : bool :=
  Value_bool (ir_value_ v)
  && bool_decide (view_generation_ v = Alias_generation a).

Definition LazyView_Update (v : LazyView) (ir_value : Value)
    (h : gmap N Alias) : Result (gmap N Alias) :=
  let* a := deref (h !! alias_ v) in
  Ok (<[alias_ v := Alias_Update a ir_value (view_infos_ v)]> h).

Definition LazyView_CreateSubView (v : LazyView) (shape : Shape)
    (view_info : ViewInfo) (h : gmap N Alias) : LazyView * gmap N Alias :=
  let view_infos := view_infos_ v in
  let view_infos := view_infos ++ [view_info] in
  (LazyView_chain shape (alias_ v) view_infos, h).

(** [for (auto& view_info : view_infos_) update = ApplyViewInfo(update,
    view_info)]. *)
Fixpoint view_loop (update : Value) (view_infos : list ViewInfo)
  : Result Value :=
  match view_infos with
  | [] => Ok update
  | view_info :: rest =>
      let* update' := ApplyViewInfo update view_info in
      view_loop update' rest
  end.

Definition LazyView_GetViewIrNode (v : LazyView) (h : gmap N Alias)
  : Result (Value * bool * LazyView * gmap N Alias) :=
  let* a := deref (h !! alias_ v) in
  if IsUpToDate v a then Ok (ir_value_ v, false, v, h)
  else
    let* (update, a') := Alias_SyncUpdateOperations a in
    let h' := <[alias_ v := a']> h in
    let* update := view_loop update (view_infos_ v) in
    Ok (update, true,
        {| view_infos_ := view_infos_ v;
           shape_ := shape_ v;
           alias_ := alias_ v;
           ir_value_ := update;
           view_generation_ := Alias_generation a' |},
        h').

(** ** The specification's reading of the two passes

    These follow the specification's words and are compared with the code
    above. *)

(** "Write [source] into [target] at the position described by the
    descriptor": the inverse of each kind, from the table of kinds. *)
Definition inverse_apply (d : ViewInfo) (target source : Value)
  : Result Value :=
  match view_type d with
  | kSelect =>
      let* s := deref (select d) in
      Ok (SelectViewUpdate ltc_select_view_update target source
            (sel_dim s) (sel_start s) (sel_end s) (sel_stride s))
  | kNarrow =>
      Ok (NarrowViewUpdate ltc_narrow_view_update target source (indices d))
  | kNoOp => Ok source
  | kPermute =>
      Ok (Permute aten_permute source (InversePermutation (permutation d)))
  | kReshape => Ok (View aten_view source (sizes (source_shape d)))
  | kResize => Ok (Resize aten_resize source (sizes (source_shape d)))
  | kSqueeze => Ok (Unsqueeze aten_unsqueeze source (squeeze_index d))
  | kUnsqueeze => Ok (Squeeze aten_squeeze source (squeeze_index d))
  | kAsStrided =>
      let* a := deref (as_strided d) in
      Ok (AsStridedViewUpdate ltc_as_strided_view_update target source
            (sizes (source_shape d)) (as_stride a) (as_offset a))
  | kDiagonal =>
      let* dg := deref (diagonal d) in
      Ok (DiagonalViewUpdate ltc_diagonal_view_update target source
            (diag_offset dg) (diag_dim1 dg) (diag_dim2 dg))
  | kOther raw => invalid_view_type raw
  end.

(** The forward pass as a left fold: each descriptor applied in chain
    order. *)
Definition forward_spec (root : Value) (chain : list ViewInfo)
  : Result Value :=
  fold_left (fun acc d => let* x := acc in ApplyViewInfo x d) chain (Ok root).

(** Replaying a queue, oldest entry first, each result becoming the root the
    next entry is replayed against. *)
Definition replay_spec (root : Value) (updates : list UpdateData)
  : Result Value :=
  fold_left (fun acc u => let* r := acc in ApplyUpdate r u) updates (Ok root).

(** The backward pass as the specification words it: from [i] down to 1,
    [result = inverse_apply(descriptor[i-1], target = tmp[i-1],
    source = result)]. *)
Fixpoint backward_spec (chain : list ViewInfo) (tmp : list Value) (i : nat)
    (result : Value) : Result Value :=
  match i with
  | O => Ok result
  | S j =>
      let* d := vector_at chain j in
      let* target := vector_at tmp j in
      let* result' := inverse_apply d target result in
      backward_spec chain tmp j result'
  end.

(** The cache a view holds after it has been resolved to [value] at
    generation [g]. *)
Definition resolved (v : LazyView) (value : Value) (g : N) : LazyView :=
  {| view_infos_ := view_infos_ v;
     shape_ := shape_ v;
     alias_ := alias_ v;
     ir_value_ := value;
     view_generation_ := g |}.

(** The slow path of [GetViewIrNode] on a view whose alias is [a]. *)
Definition resync (v : LazyView) (a : Alias) (h : gmap N Alias)
  : Result (Value * bool * LazyView * gmap N Alias) :=
  let* (root, a') := Alias_SyncUpdateOperations a in
  let* value := forward_spec root (view_infos_ v) in
  Ok (value, true, resolved v value (generation_ a), <[alias_ v := a']> h).

End WithViewOps.

(** ** The [Scalar] node

    [at::Scalar] is a type of [c10]; it is kept abstract. *)

Definition TORCH_INTERNAL_ASSERT (cond : bool) (msg : string) : Result unit :=
  if cond then Ok tt else Fatal (InternalAssertFailed msg None).

Section ScalarNode.

Variable at_Scalar : Type.

Record Scalar : Type := mkScalar {
  value_ : at_Scalar;
  scalar_shape_ : Shape
}.

Definition Scalar_Equal_shape (this : Scalar) (value : at_Scalar)
    (shape : Shape) : Result bool :=
  let* _ := TORCH_INTERNAL_ASSERT false "Reusing Scalar nodes is unsupported" in
  Ok false.

Definition Scalar_Equal_type (this : Scalar) (value : at_Scalar)
    (type : N) : Result bool :=
  let* _ := TORCH_INTERNAL_ASSERT false "Reusing Scalar nodes is unsupported" in
  Ok false.

End ScalarNode.

(** ** The node factory, for [Scalar] nodes *)

Section NodeFactory.

Variable at_Scalar : Type.

(** Modelled from the spec: the node factory ([MakeNode],
    [ReuseOrMakeNode]) belongs to the IR headers, which are not among the
    sources.  It is the facility that will "build or reuse a node
    representing operation O applied to operands", a memoizing factory
    that returns a handle: reuse returns the handle of a node built before
    ("reference-equal"), building makes a new node with a handle of its
    own and remembers it.  Whether a node built before stands for the
    arguments at hand is decided by the reuse-equality test of its class,
    here [Scalar::Equal].  Which of the remembered nodes are put to the
    test (a hash bucket, a branch of a trie, all of them) the factory
    decides: [candidates]. *)
Record ScalarFactory : Type := mkScalarFactory {
  built : list (N * Scalar at_Scalar);
  next_handle : N
}.

Variable candidates :
  ScalarFactory -> at_Scalar -> Shape -> list (N * Scalar at_Scalar).

(** Modelled from the spec: building a node. *)
Definition MakeNode_Scalar (f : ScalarFactory) (value : at_Scalar)
    (shape : Shape) : N * ScalarFactory :=
  (next_handle f,
   {| built := built f ++ [(next_handle f, mkScalar at_Scalar value shape)];
      next_handle := (next_handle f + 1)%N |}).

(** Modelled from the spec: looking for a node to reuse among the
    candidates, first accepted first served. *)
Fixpoint reuse_lookup (cs : list (N * Scalar at_Scalar)) (value : at_Scalar)
    (shape : Shape) : Result (option N) :=
  match cs with
  | [] => Ok None
  | (handle, node) :: rest =>
      let* same := Scalar_Equal_shape at_Scalar node value shape in
      if same then Ok (Some handle) else reuse_lookup rest value shape
  end.

(** Modelled from the spec: "build or reuse a node". *)
Definition ReuseOrMakeNode_Scalar (f : ScalarFactory) (value : at_Scalar)
    (shape : Shape) : Result (N * ScalarFactory) :=
  let* hit := reuse_lookup (candidates f value shape) value shape in
  match hit with
  | Some handle => Ok (handle, f)
  | None => Ok (MakeNode_Scalar f value shape)
  end.

(** The handles in use lie below the next one to be given out. *)
Definition factory_ok (f : ScalarFactory) : Prop :=
  forall handle node, (handle, node) ∈ built f -> (handle < next_handle f)%N.

End NodeFactory.

Arguments built {at_Scalar} _.
Arguments next_handle {at_Scalar} _.
Arguments MakeNode_Scalar {at_Scalar} f value shape.
Arguments reuse_lookup {at_Scalar} cs value shape.
Arguments ReuseOrMakeNode_Scalar {at_Scalar} candidates f value shape.
Arguments factory_ok {at_Scalar} f.

Arguments value_ {at_Scalar} _.
Arguments scalar_shape_ {at_Scalar} _.
Arguments Scalar_Equal_shape {at_Scalar} this value shape.
Arguments Scalar_Equal_type {at_Scalar} this value type.

(** ** The view-update node classes

    [SelectViewUpdate] and [AsStridedViewUpdate] keep their operands in the
    node base class and their parameters in private members.  [operand(i)]
    and the equality of [Value]s belong to the base IR ([ts_node.h] and
    below, not at hand): [operand(i)] is the [i]-th operand, with no
    defined result where there is none, and two [Value]s are equal when
    they are the same node. *)

#[global] Instance OpKind_eq_dec : EqDecision OpKind.
Proof. solve_decision. Defined.

#[global] Instance Value_eq_dec : EqDecision Value.
Proof. solve_decision. Defined.

Record SelectViewUpdateNode : Type := mkSelectViewUpdateNode {
  svu_operands : list Value;
  svu_dim_ : Z;
  svu_start_ : Z;
  svu_end_ : Z;
  svu_stride_ : Z
}.

Definition SelectViewUpdate_Equal (this : SelectViewUpdateNode)
    (target source : Value) (dim start end_ stride : Z) : Result bool :=
  let* o0 := vector_at (svu_operands this) 0 in
  if bool_decide (o0 = target) then
    let* o1 := vector_at (svu_operands this) 1 in
    Ok (bool_decide (o1 = source)
        && bool_decide (svu_dim_ this = dim)
        && bool_decide (svu_start_ this = start)
        && bool_decide (svu_end_ this = end_)
        && bool_decide (svu_stride_ this = stride))
  else Ok false.

Record AsStridedViewUpdateNode : Type := mkAsStridedViewUpdateNode {
  asvu_operands : list Value;
  asvu_size_ : list Z;
  asvu_stride_ : list Z;
  asvu_storage_offset_ : Z
}.

Definition AsStridedViewUpdate_Equal (this : AsStridedViewUpdateNode)
    (target input : Value) (size stride : list Z) (storage_offset : Z)
  : Result bool :=
  let* o0 := vector_at (asvu_operands this) 0 in
  if bool_decide (o0 = target) then
    let* o1 := vector_at (asvu_operands this) 1 in
    Ok (bool_decide (o1 = input)
        && bool_decide (asvu_size_ this = size)
        && bool_decide (asvu_stride_ this = stride)
        && bool_decide (asvu_storage_offset_ this = storage_offset))
  else Ok false.

(** Modelled from the spec: the constructors are defined in the [.cpp] files
    of the two classes, not at hand; a node records the operands it was
    made from, target first, and its parameters. *)
Definition SelectViewUpdate_ctor (target source : Value)
    (dim start end_ stride : Z) : SelectViewUpdateNode :=
  {| svu_operands := [target; source];
     svu_dim_ := dim;
     svu_start_ := start;
     svu_end_ := end_;
     svu_stride_ := stride |}.

Definition AsStridedViewUpdate_ctor (target input : Value)
    (size stride : list Z) (storage_offset : Z) : AsStridedViewUpdateNode :=
  {| asvu_operands := [target; input];
     asvu_size_ := size;
     asvu_stride_ := stride;
     asvu_storage_offset_ := storage_offset |}.

(** ** The dimension loop of the scatter and gather kernels

    [_cpu_scatter_gather_dim_loop] walks raw pointers.  A buffer is the map
    from element offsets (relative to the pointer the loop is given) to the
    cells that may be accessed; an access anywhere else has no defined
    behaviour, and neither has a 64-bit product that overflows.  The
    buffers of [self], [index] and [src] are three maps: the kernels run
    under a [TensorIterator] built with its overlap check on.

    Every functor of the file ([TensorAssign], [ReduceAdd],
    [ReduceMultiply], [ReduceMean], [ReduceMaximum], [ReduceMinimum])
    stores into [*self_data] a value computed from [*self_data] and
    [*src_data]; a functor is the function that computes it. *)

Definition int64_min : Z := - 2 ^ 63.
Definition int64_max : Z := 2 ^ 63 - 1.

Definition mul64 (a b : Z) : Result Z :=
  if (int64_min <=? a * b) && (a * b <=? int64_max)
  then Ok (a * b) else Fatal BadAccess.

(** [for (const auto i : c10::irange(n))]: 0, 1, ..., n - 1, nothing when
    [n] is not positive. *)
Definition irange (n : Z) : list Z := map Z.of_nat (seq 0 (Z.to_nat n)).

Fixpoint for_each {S : Type} (body : Z -> S -> Result S) (l : list Z)
    (s : S) : Result S :=
  match l with
  | [] => Ok s
  | i :: rest => let* s' := body i s in for_each body rest s'
  end.

Definition TensorAssign {scalar_t : Type} (self_value src_value : scalar_t)
  : scalar_t := src_value.

Definition ReduceMultiply_bool (self_value src_value : bool) : bool :=
  self_value && src_value.

(** [f(self_data + soff, src_data + roff)]. *)
Definition call_functor {scalar_t : Type}
    (f : scalar_t -> scalar_t -> scalar_t)
    (self_data : gmap Z scalar_t) (soff : Z)
    (src_data : gmap Z scalar_t) (roff : Z)
  : Result (gmap Z scalar_t) :=
  let* s := deref (self_data !! soff) in
  let* x := deref (src_data !! roff) in
  Ok (<[soff := f s x]> self_data).

Definition dim_loop_body {scalar_t : Type} (is_scatter_like : bool)
    (f : scalar_t -> scalar_t -> scalar_t)
    (self_dim_stride : Z)
    (index_data : gmap Z Z) (index_dim_stride : Z)
    (src_data : gmap Z scalar_t) (src_dim_stride : Z)
    (index_upper_bound : Z)
    (i : Z) (self_data : gmap Z scalar_t) : Result (gmap Z scalar_t) :=
  let* ioff := mul64 i index_dim_stride in
  let* idx_dim := deref (index_data !! ioff) in
  let* _ := TORCH_CHECK ((0 <=? idx_dim) && (idx_dim <? index_upper_bound)) in
  let* soff :=
    mul64 (if is_scatter_like then idx_dim else i) self_dim_stride in
  let* roff :=
    mul64 (if is_scatter_like then i else idx_dim) src_dim_stride in
  call_functor f self_data soff src_data roff.

Definition _cpu_scatter_gather_dim_loop {scalar_t : Type}
    (is_scatter_like : bool)
    (self_data : gmap Z scalar_t) (self_dim_stride : Z)
    (index_data : gmap Z Z) (index_dim_stride : Z)
    (src_data : gmap Z scalar_t) (src_dim_stride : Z)
    (dim index_dim_size index_upper_bound : Z)
    (f : scalar_t -> scalar_t -> scalar_t) : Result (gmap Z scalar_t) :=
  for_each
    (dim_loop_body is_scatter_like f self_dim_stride index_data
       index_dim_stride src_data src_dim_stride index_upper_bound)
    (irange index_dim_size) self_data.

(** The [src] values a scatter aims at row [t], in loop order. *)
Definition contributions {scalar_t : Type}
    (index_data : gmap Z Z) (index_dim_stride : Z)
    (src_data : gmap Z scalar_t) (src_dim_stride : Z)
    (t : Z) (l : list Z) : list scalar_t :=
  omap (fun i =>
          match index_data !! (i * index_dim_stride) with
          | Some idx =>
              if bool_decide (idx = t) then src_data !! (i * src_dim_stride)
              else None
          | None => None
          end) l.

(** ** Notions used to state further properties *)

(** A descriptor both dispatches can work on: its kind is one of the ten and
    the payload its kind reads through [->] is there. *)
Definition dispatchable (d : ViewInfo) : bool :=
  match view_type d with
  | kSelect => bool_decide (select d <> None)
  | kAsStrided => bool_decide (as_strided d <> None)
  | kDiagonal => bool_decide (diagonal d <> None)
  | kOther _ => false
  | _ => true
  end.

Definition is_squeeze_kind (d : ViewInfo) : bool :=
  match view_type d with
  | kSqueeze | kUnsqueeze => true
  | _ => false
  end.

(** Two outcomes that are both values, or the same failure. *)
Definition same_outcome_kind (r r' : Result Value) : Prop :=
  match r, r' with
  | Ok _, Ok _ => True
  | Fatal f, Fatal f' => f = f'
  | _, _ => False
  end.

(** The values the first loop of [ApplyUpdate] pushes, starting from
    [cur]. *)
Fixpoint forward_values (cur : Value) (chain : list ViewInfo)
  : Result (list Value) :=
  match chain with
  | [] => Ok []
  | d :: rest =>
      let* v := ApplyViewInfo cur d in
      let* vs := forward_values v rest in
      Ok (v :: vs)
  end.

(** A view's cache agrees with its alias: the cached generation is not
    ahead of the alias's, and when the two are equal the alias has nothing
    pending and the cached value is the view's chain applied to the alias's
    root. *)
Definition cache_ok (v : LazyView) (a : Alias) : Prop :=
  (view_generation_ v <= generation_ a)%N
  /\ (view_generation_ v = generation_ a ->
      updates_ a = []
      /\ forward_spec (root_ir_value_ a) (view_infos_ v) = Ok (ir_value_ v)).

(** The value a call of [GetViewIrNode] returned. *)
Definition returned_value
    (r : Value * bool * LazyView * gmap N Alias) : Value := r.1.1.1.

(** ** A sample instance of the view operations

    Every statement below holds for all instances of [ViewOps]; this one
    serves to run the model on concrete inputs. *)

Definition set_size (s : Shape) (dim : Z) (n : Z) : Shape :=
  {| scalar_type := scalar_type s;
     sizes := <[Z.to_nat dim := n]> (sizes s) |}.

Fixpoint index_of (x : Z) (l : list Z) (i : Z) : Z :=
  match l with
  | [] => -1
  | y :: rest => if bool_decide (x = y) then i else index_of x rest (i + 1)
  end.

Definition sample_ops : ViewOps :=
  {| MakePermuteShape s perm :=
       {| scalar_type := scalar_type s;
          sizes := map (fun d => nth (Z.to_nat d) (sizes s) 0) perm |};
     MakeSelectShape s dim start end_ stride :=
       set_size s dim ((end_ - start + stride - 1) / stride);
     MakeDiagonalShape s offset dim1 dim2 :=
       {| scalar_type := scalar_type s;
          sizes := [Z.min (nth (Z.to_nat dim1) (sizes s) 0)
                          (nth (Z.to_nat dim2) (sizes s) 0 - offset)] |};
     InversePermutation perm :=
       map (fun i => index_of (Z.of_nat i) perm 0) (seq 0 (length perm));
     squeeze_index_unset := 0 |}.

Definition float_shape (dims : list Z) : Shape :=
  {| scalar_type := 6%N; sizes := dims |}.

(** The descriptor the squeeze constructor builds, and the one the plain
    constructor builds. *)
Definition squeeze_descriptor (t : ViewInfo_Type) (sh src : Shape) (sqi : Z)
  : ViewInfo :=
  {| view_type := t;
     shape := sh;
     indices := [];
     source_shape := src;
     squeeze_index := sqi;
     permutation := [];
     select := None;
     as_strided := None;
     diagonal := None |}.

(** Sample data: a root of shape [10], the two halves of it as Select
    views, and one alias at address 7 with a write to the lower half
    pending. *)

Definition select_descriptor `{ops : ViewOps} (src : Shape) (sel : SelectInfo)
  : ViewInfo :=
  {| view_type := kSelect;
     shape := MakeSelectShape src (sel_dim sel) (sel_start sel)
                (sel_end sel) (sel_stride sel);
     indices := [];
     source_shape := src;
     squeeze_index := squeeze_index_unset;
     permutation := [];
     select := Some sel;
     as_strided := None;
     diagonal := None |}.

Definition select_lo : ViewInfo :=
  select_descriptor (ops := sample_ops) (float_shape [10])
    (mkSelectInfo 0 0 5 1).

Definition select_hi : ViewInfo :=
  select_descriptor (ops := sample_ops) (float_shape [10])
    (mkSelectInfo 0 5 10 1).

Definition unknown_descriptor : ViewInfo :=
  squeeze_descriptor (kOther 42) (float_shape [10]) (float_shape [10]) 0.

Definition sample_alias : Alias :=
  {| root_ir_value_ := External 0;
     updates_ := [{| ir_value := External 1; view_infos := [select_lo] |}];
     generation_ := 1 |}.

Definition sample_heap : gmap N Alias := {[ 7%N := sample_alias ]}.

Definition view_lo : LazyView :=
  LazyView_single (float_shape [5]) 7 select_lo.

Definition view_hi : LazyView :=
  LazyView_single (float_shape [5]) 7 select_hi.

(** [view_hi] once it has been resolved against [sample_heap]. *)
Definition view_hi_fresh : LazyView :=
  resolved view_hi
    (Select aten_select
       (SelectViewUpdate ltc_select_view_update (External 0) (External 1)
          0 0 5 1)
       0 5 10 1)
    1.

Definition synced_alias : Alias :=
  {| root_ir_value_ :=
       SelectViewUpdate ltc_select_view_update (External 0) (External 1)
         0 0 5 1;
     updates_ := [];
     generation_ := 1 |}.

Definition synced_heap : gmap N Alias := {[ 7%N := synced_alias ]}.

(** An alias nobody has written to yet, with a view just made on it, and an
    alias whose root is the null [Value], with a direct view (empty chain)
    on it. *)
Definition unwritten_alias : Alias :=
  {| root_ir_value_ := External 0; updates_ := []; generation_ := 0 |}.

Definition unwritten_heap : gmap N Alias := {[ 7%N := unwritten_alias ]}.

Definition null_alias : Alias :=
  {| root_ir_value_ := NullValue; updates_ := []; generation_ := 0 |}.

Definition null_heap : gmap N Alias := {[ 7%N := null_alias ]}.

Definition direct_view : LazyView := LazyView_chain (float_shape [10]) 7 [].

(** A factory that has built nothing, and one that puts every remembered
    node to the test. *)
Definition empty_factory : ScalarFactory Z :=
  {| built := []; next_handle := 0 |}.

Definition all_built (f : ScalarFactory Z) (value : Z) (shape : Shape)
  : list (N * Scalar Z) := built f.

Definition reshape_column : ViewInfo :=
  squeeze_descriptor kReshape (float_shape [5; 1]) (float_shape [5]) 0.

Definition noop_descriptor : ViewInfo :=
  squeeze_descriptor kNoOp (float_shape [5]) (float_shape [5]) 0.

(** Buffers of three, two and two cells for the dimension loop. *)
Definition self_cells : gmap Z Z := {[ 0 := 10; 1 := 11; 2 := 12 ]}.
Definition index_cells : gmap Z Z := {[ 0 := 2; 1 := 0 ]}.
Definition bad_index_cells : gmap Z Z := {[ 0 := 2; 1 := 5 ]}.
Definition src_cells : gmap Z Z := {[ 0 := 7; 1 := 8 ]}.
Definition out_cells : gmap Z Z := {[ 0 := 0; 1 := 0 ]}.
Definition scattered_cells : gmap Z Z := {[ 0 := 8; 1 := 11; 2 := 7 ]}.

(** * Properties *)

Section Properties.

Context `{ops : ViewOps}.

(** *** The backward pass against the specification's inverse *)

(** For every kind but Squeeze and Unsqueeze the loop body is the
    specification's inverse, with [tmp_values[i - 1]] as target and the
    running result as source. *)
Lemma backward_step_inverse_apply
    (root : Value) (tmp_values : list Value) (i : nat) (d : ViewInfo)
    (target result : Value) :
  tmp_values !! (i - 1)%nat = Some target ->
  view_type d <> kSqueeze ->
  view_type d <> kUnsqueeze ->
  backward_step root tmp_values i d result = inverse_apply d target result.
Proof.
  intros Htmp Hsq Hun.
  unfold backward_step, inverse_apply, vector_at.
  rewrite Htmp.
  destruct (view_type d); simpl; try reflexivity; congruence.
Qed.

(** For Squeeze and Unsqueeze the loop body gives the inverse of the value
    [ApplyUpdate] was called with, whatever the running result is. *)
Lemma backward_step_squeeze_source
    (root : Value) (tmp_values : list Value) (i : nat) (d : ViewInfo)
    (target result : Value) :
  view_type d = kSqueeze \/ view_type d = kUnsqueeze ->
  backward_step root tmp_values i d result = inverse_apply d target root.
Proof.
  intros [H|H]; unfold backward_step, inverse_apply; rewrite H; reflexivity.
Qed.

(** On a chain without Squeeze and Unsqueeze the whole second loop is the
    specification's backward pass. *)
Lemma backward_loop_backward_spec
    (root : Value) (chain : list ViewInfo) (tmp_values : list Value)
    (i : nat) (result : Value) :
  Forall (fun d => view_type d <> kSqueeze /\ view_type d <> kUnsqueeze)
         chain ->
  (i <= length chain)%nat ->
  (i <= length tmp_values)%nat ->
  backward_loop root chain tmp_values i result
  = backward_spec chain tmp_values i result.
Proof.
  intros Hall. revert result.
  induction i as [|j IH]; intros result Hc Ht; [reflexivity|].
  cbn [backward_loop backward_spec].
  replace (S j - 1)%nat with j by lia.
  destruct (lookup_lt_is_Some_2 chain j ltac:(lia)) as [d Hd].
  destruct (lookup_lt_is_Some_2 tmp_values j ltac:(lia)) as [target Htg].
  unfold vector_at. rewrite Hd, Htg. simpl.
  pose proof (proj1 (Forall_lookup _ _) Hall j d Hd) as [Hsq Hun].
  rewrite (backward_step_inverse_apply root tmp_values (S j) d target result)
    by (try replace (S j - 1)%nat with j by lia; assumption).
  destruct (inverse_apply d target result) as [r|f]; simpl; [|reflexivity].
  apply IH; lia.
Qed.

(** C1.  The code at a chain of one Squeeze (or one Unsqueeze) descriptor:
    [ApplyUpdate] returns the inverse applied to the root value it was
    given, and the update value [u] does not occur in the outcome; the
    specification's step, the inverse applied to the running result [u]
    with target [tmp[0]], is a different value whenever [u] differs from
    the root. *)
Theorem ApplyUpdate_squeeze_ignores_update
    (root u : Value) (sh src : Shape) (sqi : Z) :
  let sq := squeeze_descriptor kSqueeze sh src sqi in
  let un := squeeze_descriptor kUnsqueeze sh src sqi in
  ApplyUpdate root {| ir_value := u; view_infos := [sq] |}
    = Ok (Unsqueeze aten_unsqueeze root sqi)
  /\ inverse_apply sq root u = Ok (Unsqueeze aten_unsqueeze u sqi)
  /\ ApplyUpdate root {| ir_value := u; view_infos := [un] |}
    = Ok (Squeeze aten_squeeze root sqi)
  /\ inverse_apply un root u = Ok (Squeeze aten_squeeze u sqi)
  /\ ViewInfo_squeeze kSqueeze sh src sqi = Ok sq.
Proof. repeat split. Qed.

(** *** [Alias::Update] *)

Lemma set_back_ir_value_snoc (pre : list UpdateData) (back : UpdateData)
    (v : Value) :
  set_back_ir_value (pre ++ [back]) v
  = pre ++ [{| ir_value := v; view_infos := view_infos back |}].
Proof.
  unfold set_back_ir_value.
  rewrite length_app. simpl.
  replace (length pre + 1 - 1)%nat with (length pre + 0)%nat by lia.
  rewrite alter_app_r. reflexivity.
Qed.

Lemma Alias_Update_same_chain
    (a : Alias) (v : Value) (chain : list ViewInfo)
    (pre : list UpdateData) (back : UpdateData) :
  updates_ a = pre ++ [back] ->
  view_infos back = chain ->
  updates_ (Alias_Update a v chain)
    = pre ++ [{| ir_value := v; view_infos := chain |}]
  /\ generation_ (Alias_Update a v chain) = (generation_ a + 1)%N.
Proof.
  intros Hq Hc. unfold Alias_Update; simpl.
  rewrite Hq, last_snoc, bool_decide_eq_true_2 by assumption.
  rewrite set_back_ir_value_snoc, Hc. split; reflexivity.
Qed.

(** C2.  [Alias::Update]: when the queue ends with an entry whose chain is
    the given one, that entry's value is replaced where it stands and the
    queue keeps its length; when the queue is empty, or ends with an entry
    of another chain, the pair is appended; the generation grows by exactly
    one in every case, and the root value stays as it is. *)
Theorem Alias_Update_coalesces_or_appends
    (a : Alias) (v : Value) (chain : list ViewInfo) :
  generation_ (Alias_Update a v chain) = (generation_ a + 1)%N
  /\ root_ir_value_ (Alias_Update a v chain) = root_ir_value_ a
  /\ (forall pre back,
        updates_ a = pre ++ [back] ->
        view_infos back = chain ->
        updates_ (Alias_Update a v chain)
          = pre ++ [{| ir_value := v; view_infos := chain |}]
        /\ length (updates_ (Alias_Update a v chain)) = length (updates_ a))
  /\ (forall pre back,
        updates_ a = pre ++ [back] ->
        view_infos back <> chain ->
        updates_ (Alias_Update a v chain)
          = updates_ a ++ [{| ir_value := v; view_infos := chain |}])
  /\ (updates_ a = [] ->
        updates_ (Alias_Update a v chain)
          = [{| ir_value := v; view_infos := chain |}]).
Proof.
  split; [reflexivity|]. split; [reflexivity|].
  split; [|split].
  - intros pre back Hq Hc. unfold Alias_Update; simpl.
    rewrite Hq, last_snoc, bool_decide_eq_true_2 by assumption.
    rewrite set_back_ir_value_snoc, Hc.
    split; [reflexivity|]. rewrite !length_app. reflexivity.
  - intros pre back Hq Hc. unfold Alias_Update; simpl.
    rewrite Hq, last_snoc, bool_decide_eq_false_2 by assumption.
    reflexivity.
  - intros Hq. unfold Alias_Update; simpl. rewrite Hq. reflexivity.
Qed.

(** A run of writes with one chain: whatever the queue held, after the
    first write it ends with an entry of that chain, and the later writes
    of the run only replace that entry's value; the generation counts every
    write. *)
Lemma Alias_Update_ends_with (a : Alias) (v : Value) (chain : list ViewInfo) :
  exists pre,
    updates_ (Alias_Update a v chain)
    = pre ++ [{| ir_value := v; view_infos := chain |}].
Proof.
  unfold Alias_Update; simpl.
  destruct (last (updates_ a)) as [back|] eqn:Hlast.
  - apply last_Some in Hlast as [pre Hpre].
    destruct (bool_decide (view_infos back = chain)) eqn:Hc.
    + apply bool_decide_eq_true_1 in Hc.
      exists pre. rewrite Hpre, set_back_ir_value_snoc, Hc. reflexivity.
    + eauto.
  - eauto.
Qed.

Lemma last_default_irrelevant {A : Type} (l : list A) (x d d' : A) :
  List.last (x :: l) d = List.last (x :: l) d'.
Proof.
  revert x. induction l as [|y l IH]; intros x; [reflexivity|].
  change (List.last (y :: l) d = List.last (y :: l) d'). apply IH.
Qed.

Lemma Alias_Update_run_from
    (chain : list ViewInfo) (vs : list Value) (first : Alias) (v0 : Value)
    (pre : list UpdateData) :
  updates_ first = pre ++ [{| ir_value := v0; view_infos := chain |}] ->
  let final := fold_left (fun acc v => Alias_Update acc v chain) vs first in
  generation_ final = (generation_ first + N.of_nat (length vs))%N
  /\ updates_ final
     = pre ++ [{| ir_value := List.last vs v0; view_infos := chain |}].
Proof.
  revert first v0.
  induction vs as [|v vs IH]; intros first v0 Hpre; cbn zeta.
  - simpl. split; [lia | exact Hpre].
  - cbn [fold_left].
    destruct (Alias_Update_same_chain first v chain pre
                {| ir_value := v0; view_infos := chain |} Hpre eq_refl)
      as [Hq Hg].
    destruct (IH (Alias_Update first v chain) v Hq) as [Hgen Hfin].
    split.
    + rewrite Hgen, Hg. cbn [length]. lia.
    + rewrite Hfin. destruct vs as [|v1 vs]; [reflexivity|].
      do 3 f_equal.
      change (List.last (v :: v1 :: vs) v0) with (List.last (v1 :: vs) v0).
      apply last_default_irrelevant.
Qed.

Lemma Alias_Update_run
    (a : Alias) (chain : list ViewInfo) (v0 : Value) (vs : list Value) :
  let first := Alias_Update a v0 chain in
  let final := fold_left (fun acc v => Alias_Update acc v chain) vs first in
  generation_ final = (generation_ a + 1 + N.of_nat (length vs))%N
  /\ exists pre,
       updates_ first = pre ++ [{| ir_value := v0; view_infos := chain |}]
       /\ updates_ final
          = pre ++ [{| ir_value := List.last vs v0; view_infos := chain |}].
Proof.
  intros first final.
  destruct (Alias_Update_ends_with a v0 chain) as [pre Hpre].
  destruct (Alias_Update_run_from chain vs first v0 pre Hpre) as [Hgen Hfin].
  split; [exact Hgen | eauto].
Qed.

(** *** [Alias::SyncUpdateOperations] *)

Lemma sync_loop_app (root : Value) (us1 us2 : list UpdateData) :
  sync_loop root (us1 ++ us2)
  = let* r := sync_loop root us1 in sync_loop r us2.
Proof.
  revert root. induction us1 as [|u us1 IH]; intros root; simpl.
  - reflexivity.
  - destruct (ApplyUpdate root u) as [r|f]; simpl; [apply IH | reflexivity].
Qed.

Lemma fold_left_Fatal {A B : Type} (step : A -> B -> Result A)
    (l : list B) (f : Failure) :
  fold_left (fun acc x => let* r := acc in step r x) l (Fatal f) = Fatal f.
Proof. induction l as [|x l IH]; simpl; [reflexivity | apply IH]. Qed.

Lemma sync_loop_replay_spec (root : Value) (us : list UpdateData) :
  sync_loop root us = replay_spec root us.
Proof.
  unfold replay_spec. revert root.
  induction us as [|u us IH]; intros root; simpl.
  - reflexivity.
  - destruct (ApplyUpdate root u) as [r|f]; simpl.
    + apply IH.
    + symmetry. apply (fold_left_Fatal ApplyUpdate).
Qed.

(** C3.  [SyncUpdateOperations] replays the queue oldest entry first, each
    result becoming the root the next entry is replayed against (the left
    fold [replay_spec]; put differently, the entry enqueued last is applied
    last, to the root the earlier entries produced), then leaves an empty
    queue, returns the new root, which is also the stored one, and keeps
    the generation; with an empty queue it returns the root and leaves the
    alias as it was. *)
Theorem Alias_SyncUpdateOperations_replays_in_order
    (root : Value) (us : list UpdateData) (g : N) :
  Alias_SyncUpdateOperations
      {| root_ir_value_ := root; updates_ := us; generation_ := g |}
    = (let* r := replay_spec root us in
       Ok (r, {| root_ir_value_ := r; updates_ := []; generation_ := g |}))
  /\ (forall u,
        replay_spec root (us ++ [u])
        = let* r := replay_spec root us in ApplyUpdate r u)
  /\ Alias_SyncUpdateOperations
       {| root_ir_value_ := root; updates_ := []; generation_ := g |}
     = Ok (root,
           {| root_ir_value_ := root; updates_ := []; generation_ := g |}).
Proof.
  split; [|split].
  - unfold Alias_SyncUpdateOperations; simpl.
    rewrite sync_loop_replay_spec. reflexivity.
  - intros u. rewrite <- !sync_loop_replay_spec, sync_loop_app. simpl.
    destruct (sync_loop root us) as [r|f]; simpl; [|reflexivity].
    destruct (ApplyUpdate r u); reflexivity.
  - reflexivity.
Qed.

(** C9.  An update with an empty chain replays to its own value, whatever
    the root was; so a queue that holds such an entry syncs as the entries
    after it replayed against that value, and when the entry is the last
    one the root becomes exactly its value. *)
Theorem ApplyUpdate_empty_chain_replaces_root
    (root u : Value) (pre post : list UpdateData) (g : N) :
  let direct := {| ir_value := u; view_infos := [] |} in
  ApplyUpdate root direct = Ok u
  /\ sync_loop root (pre ++ direct :: post)
     = (let* _ := sync_loop root pre in sync_loop u post)
  /\ Alias_SyncUpdateOperations
       {| root_ir_value_ := root;
          updates_ := pre ++ [direct];
          generation_ := g |}
     = (let* _ := sync_loop root pre in
        Ok (u, {| root_ir_value_ := u; updates_ := []; generation_ := g |})).
Proof.
  intros direct.
  split; [reflexivity|]. split.
  - rewrite sync_loop_app. destruct (sync_loop root pre); reflexivity.
  - unfold Alias_SyncUpdateOperations; simpl.
    rewrite sync_loop_app. destruct (sync_loop root pre); reflexivity.
Qed.

(** *** [LazyView::GetViewIrNode] *)

Lemma view_loop_forward_spec (root : Value) (chain : list ViewInfo) :
  view_loop root chain = forward_spec root chain.
Proof.
  unfold forward_spec. revert root.
  induction chain as [|d chain IH]; intros root; simpl.
  - reflexivity.
  - destruct (ApplyViewInfo root d) as [x|f]; simpl.
    + apply IH.
    + symmetry. apply (fold_left_Fatal ApplyViewInfo).
Qed.

Lemma Alias_SyncUpdateOperations_Ok (a : Alias) (root : Value) (a' : Alias) :
  Alias_SyncUpdateOperations a = Ok (root, a') ->
  root_ir_value_ a' = root /\ updates_ a' = []
  /\ generation_ a' = generation_ a.
Proof.
  unfold Alias_SyncUpdateOperations.
  destruct (sync_loop (root_ir_value_ a) (updates_ a)) as [r|f]; simpl;
    [|discriminate].
  intros [= <- <-]. auto.
Qed.

Lemma GetViewIrNode_not_up_to_date
    (v : LazyView) (a : Alias) (h : gmap N Alias) :
  h !! alias_ v = Some a ->
  IsUpToDate v a = false ->
  LazyView_GetViewIrNode v h = resync v a h.
Proof.
  intros Hl Hup. unfold LazyView_GetViewIrNode, resync.
  rewrite Hl; simpl. rewrite Hup.
  destruct (Alias_SyncUpdateOperations a) as [[root a']|f] eqn:Hs; simpl;
    [|reflexivity].
  apply Alias_SyncUpdateOperations_Ok in Hs as (_ & _ & Hgen).
  rewrite view_loop_forward_spec.
  destruct (forward_spec root (view_infos_ v)); simpl; [|reflexivity].
  unfold resolved, Alias_generation. rewrite Hgen. reflexivity.
Qed.

Lemma GetViewIrNode_stale (v : LazyView) (a : Alias) (h : gmap N Alias) :
  h !! alias_ v = Some a ->
  view_generation_ v <> generation_ a ->
  LazyView_GetViewIrNode v h = resync v a h.
Proof.
  intros Hl Hg. apply GetViewIrNode_not_up_to_date; [exact Hl|].
  unfold IsUpToDate. rewrite bool_decide_eq_false_2 by exact Hg.
  apply andb_false_r.
Qed.

Lemma GetViewIrNode_no_cache (v : LazyView) (a : Alias) (h : gmap N Alias) :
  h !! alias_ v = Some a ->
  ir_value_ v = NullValue ->
  LazyView_GetViewIrNode v h = resync v a h.
Proof.
  intros Hl Hnull. apply GetViewIrNode_not_up_to_date; [exact Hl|].
  unfold IsUpToDate. rewrite Hnull. reflexivity.
Qed.

(** C4 (as amended).  [GetViewIrNode] on a view whose alias is [a]: when the
    view has a cached value and its cached generation equals the alias's,
    it returns the cached value with [false] and leaves the view and the
    alias as they are; otherwise (no cached value yet, or another
    generation) it runs [SyncUpdateOperations] on the alias, applies the
    view's own chain forward (and nothing else) starting from the synced
    root, stores that value with the alias's generation in the view, stores
    the synced alias, and returns the value with [true]. *)
Theorem GetViewIrNode_cached_or_resynced
    (v : LazyView) (a : Alias) (h : gmap N Alias) :
  h !! alias_ v = Some a ->
  (ir_value_ v <> NullValue ->
   view_generation_ v = generation_ a ->
     LazyView_GetViewIrNode v h = Ok (ir_value_ v, false, v, h))
  /\ (ir_value_ v = NullValue \/ view_generation_ v <> generation_ a ->
       LazyView_GetViewIrNode v h
       = (let* (root, a') := Alias_SyncUpdateOperations a in
          let* value := forward_spec root (view_infos_ v) in
          Ok (value, true,
              {| view_infos_ := view_infos_ v;
                 shape_ := shape_ v;
                 alias_ := alias_ v;
                 ir_value_ := value;
                 view_generation_ := generation_ a |},
              <[alias_ v := a']> h))).
Proof.
  intros Hl. split.
  - intros Hval Hg. unfold LazyView_GetViewIrNode, IsUpToDate.
    rewrite Hl; simpl.
    rewrite bool_decide_eq_true_2 by exact Hg.
    destruct (ir_value_ v); try reflexivity. contradiction.
  - intros [Hnull|Hg].
    + apply GetViewIrNode_no_cache; assumption.
    + apply GetViewIrNode_stale; assumption.
Qed.

(** After a resolution that returned, the view holds the alias's generation
    as the store has it, and its cache is the returned value. *)
Lemma GetViewIrNode_leaves_fresh
    (v : LazyView) (h : gmap N Alias) (value : Value) (changed : bool)
    (v1 : LazyView) (h1 : gmap N Alias) :
  LazyView_GetViewIrNode v h = Ok (value, changed, v1, h1) ->
  alias_ v1 = alias_ v /\ ir_value_ v1 = value
  /\ exists a1, h1 !! alias_ v = Some a1
                /\ view_generation_ v1 = generation_ a1.
Proof.
  unfold LazyView_GetViewIrNode.
  destruct (h !! alias_ v) as [a|] eqn:Hl; simpl; [|discriminate].
  destruct (IsUpToDate v a) eqn:Hup.
  - intros [= <- <- <- <-].
    unfold IsUpToDate in Hup. apply andb_true_iff in Hup as [_ Hup].
    apply bool_decide_eq_true_1 in Hup. eauto.
  - destruct (Alias_SyncUpdateOperations a) as [[root a']|f]; simpl;
      [|discriminate].
    destruct (view_loop root (view_infos_ v)) as [x|f]; simpl;
      [|discriminate].
    intros [= <- <- <- <-]. simpl. repeat split.
    exists a'. rewrite lookup_insert_eq. auto.
Qed.


(** With a value that has a node the same holds with other steps in
    between, as long as none of them changes the generation of the view's
    alias (a resolution of a sibling view, for one). *)
Lemma GetViewIrNode_again_same_generation
    (v : LazyView) (h : gmap N Alias) (value : Value) (changed : bool)
    (v1 : LazyView) (h1 h2 : gmap N Alias) (a1 a2 : Alias) :
  LazyView_GetViewIrNode v h = Ok (value, changed, v1, h1) ->
  Value_bool value = true ->
  h1 !! alias_ v = Some a1 ->
  h2 !! alias_ v = Some a2 ->
  generation_ a2 = generation_ a1 ->
  LazyView_GetViewIrNode v1 h2 = Ok (value, false, v1, h2).
Proof.
  intros H1 Hnode Hl1 Hl2 Hg12.
  destruct (GetViewIrNode_leaves_fresh _ _ _ _ _ _ H1)
    as (Hal & Hval & a1' & Hl & Hg).
  rewrite Hl1 in Hl. injection Hl as <-.
  unfold LazyView_GetViewIrNode, IsUpToDate.
  rewrite Hal, Hl2; simpl.
  rewrite bool_decide_eq_true_2
    by (unfold Alias_generation; congruence).
  rewrite Hval, Hnode. reflexivity.
Qed.

(** *** [LazyView::CreateSubView] *)

(** C6.  A sub-view of a view with chain [[P1]] (whatever that view has
    cached) points at the same alias, has chain [[P1; P2]], has no cached
    value, is made without touching the store, and is the very view the
    chain constructor builds from [[P1; P2]]; so resolving either gives the
    same outcome in every store. *)
Theorem CreateSubView_extends_chain
    (shape0 shape1 : Shape) (alias : N) (P1 P2 : ViewInfo)
    (cached : Value) (g : N) (h : gmap N Alias) :
  let parent :=
    {| view_infos_ := [P1];
       shape_ := shape0;
       alias_ := alias;
       ir_value_ := cached;
       view_generation_ := g |} in
  let sub := (LazyView_CreateSubView parent shape1 P2 h).1 in
  view_infos_ (LazyView_single shape0 alias P1) = [P1]
  /\ alias_ sub = alias
  /\ view_infos_ sub = [P1; P2]
  /\ ir_value_ sub = NullValue
  /\ (LazyView_CreateSubView parent shape1 P2 h).2 = h
  /\ sub = LazyView_chain shape1 alias [P1; P2]
  /\ (forall h' : gmap N Alias,
        LazyView_GetViewIrNode sub h'
        = LazyView_GetViewIrNode (LazyView_chain shape1 alias [P1; P2]) h').
Proof. repeat split. Qed.

(** *** Staleness through the shared alias *)

(** C7.  Views [A] and [B] point at the same alias and [B] is fresh (its
    cached generation is the alias's; it is up to date if it has a cached
    value).  After [A.Update(v)] the alias's generation is one more than
    what [B] has cached, so [B] is no longer up to date and its next
    [GetViewIrNode] takes the slow path: whenever it returns, it returns
    [true]. *)
Theorem Update_makes_other_views_stale
    (A B : LazyView) (a : Alias) (h : gmap N Alias) (v : Value) :
  alias_ A = alias_ B ->
  h !! alias_ B = Some a ->
  view_generation_ B = generation_ a ->
  let a' := Alias_Update a v (view_infos_ A) in
  let h' := <[alias_ B := a']> h in
  LazyView_Update A v h = Ok h'
  /\ IsUpToDate B a = Value_bool (ir_value_ B)
  /\ IsUpToDate B a' = false
  /\ LazyView_GetViewIrNode B h' = resync B a' h'
  /\ (forall value changed B' h'',
        LazyView_GetViewIrNode B h' = Ok (value, changed, B', h'') ->
        changed = true).
Proof.
  intros Hal Hl Hg a' h'.
  assert (Hne : view_generation_ B <> generation_ a').
  { subst a'. simpl. rewrite Hg. lia. }
  assert (Hl' : h' !! alias_ B = Some a').
  { subst h'. apply lookup_insert_eq. }
  split; [|split; [|split; [|split]]].
  - unfold LazyView_Update. rewrite Hal, Hl. reflexivity.
  - unfold IsUpToDate. rewrite bool_decide_eq_true_2 by exact Hg.
    apply andb_true_r.
  - unfold IsUpToDate. rewrite bool_decide_eq_false_2 by exact Hne.
    apply andb_false_r.
  - apply GetViewIrNode_stale; assumption.
  - intros value changed B' h''.
    rewrite (GetViewIrNode_stale B a' h' Hl' Hne). unfold resync.
    destruct (Alias_SyncUpdateOperations a') as [[root a'']|f]; simpl;
      [|discriminate].
    destruct (forward_spec root (view_infos_ B)); simpl; [|discriminate].
    intros [= _ <- _ _]. reflexivity.
Qed.

(** *** Fatal failures *)

Lemma forward_loop_unknown_kind
    (chain : list ViewInfo) (tmp_values : list Value) (d : ViewInfo)
    (raw : Z) :
  In d chain ->
  view_type d = kOther raw ->
  exists f, forward_loop tmp_values chain = Fatal f.
Proof.
  intros Hin Hk. revert tmp_values.
  induction chain as [|d0 chain IH]; intros tmp_values; [destruct Hin|].
  simpl. destruct (vector_back tmp_values) as [back|f]; simpl; [|eauto].
  destruct Hin as [->|Hin].
  - unfold ApplyViewInfo. rewrite Hk. simpl. eauto.
  - destruct (ApplyViewInfo back d0) as [x|f]; simpl; [|eauto].
    apply IH. exact Hin.
Qed.

Lemma view_loop_unknown_kind
    (chain : list ViewInfo) (update : Value) (d : ViewInfo) (raw : Z) :
  In d chain ->
  view_type d = kOther raw ->
  exists f, view_loop update chain = Fatal f.
Proof.
  intros Hin Hk. revert update.
  induction chain as [|d0 chain IH]; intros update; [destruct Hin|].
  simpl. destruct Hin as [->|Hin].
  - unfold ApplyViewInfo. rewrite Hk. simpl. eauto.
  - destruct (ApplyViewInfo update d0) as [x|f]; simpl; [|eauto].
    apply IH. exact Hin.
Qed.

(** C8.  Each constructor that takes a parameter payload (squeeze index,
    permutation, [SelectInfo], [AsStridedInfo], [DiagonalInfo]) fails its
    [TORCH_CHECK] for every kind but the payload's own, and builds the
    descriptor for that one kind; no resolution is involved.  A kind
    outside the enumeration fails the internal assertion of the forward
    dispatch and of the inverse dispatch, which reports the kind's value; a
    chain that holds such a descriptor makes [ApplyUpdate] and the forward
    loop of [GetViewIrNode] fail, never return.  A constructor's outcome is
    the descriptor or a failed check, nothing else. *)
Theorem kind_mismatch_and_unknown_kind_are_fatal :
  (forall t sh src sqi,
     t <> kSqueeze -> ViewInfo_squeeze t sh src sqi = Fatal CheckFailed)
  /\ (forall t src perm,
       t <> kPermute -> ViewInfo_permute t src perm = Fatal CheckFailed)
  /\ (forall t src sel,
       t <> kSelect -> ViewInfo_select t src sel = Fatal CheckFailed)
  /\ (forall t sh src st,
       t <> kAsStrided -> ViewInfo_as_strided t sh src st = Fatal CheckFailed)
  /\ (forall t src dg,
       t <> kDiagonal -> ViewInfo_diagonal t src dg = Fatal CheckFailed)
  /\ (forall sh src sqi src' perm sel st dg,
       is_Ok (ViewInfo_squeeze kSqueeze sh src sqi)
       /\ is_Ok (ViewInfo_permute kPermute src' perm)
       /\ is_Ok (ViewInfo_select kSelect src' sel)
       /\ is_Ok (ViewInfo_as_strided kAsStrided sh src st)
       /\ is_Ok (ViewInfo_diagonal kDiagonal src' dg))
  /\ (forall v d raw,
       view_type d = kOther raw ->
       ApplyViewInfo v d
       = Fatal (InternalAssertFailed "Invalid view type: " (Some raw)))
  /\ (forall root tmp_values i d result raw,
       view_type d = kOther raw ->
       backward_step root tmp_values i d result
       = Fatal (InternalAssertFailed "Invalid view type: " (Some raw)))
  /\ (forall root u d raw,
       In d (view_infos u) ->
       view_type d = kOther raw ->
       exists f, ApplyUpdate root u = Fatal f)
  /\ (forall update chain d raw,
       In d chain ->
       view_type d = kOther raw ->
       exists f, view_loop update chain = Fatal f).
Proof.
  repeat apply conj.
  - intros t sh src sqi Ht. unfold ViewInfo_squeeze.
    rewrite bool_decide_eq_false_2 by exact Ht. reflexivity.
  - intros t src perm Ht. unfold ViewInfo_permute.
    rewrite bool_decide_eq_false_2 by exact Ht. reflexivity.
  - intros t src sel Ht. unfold ViewInfo_select.
    rewrite bool_decide_eq_false_2 by exact Ht. reflexivity.
  - intros t sh src st Ht. unfold ViewInfo_as_strided.
    rewrite bool_decide_eq_false_2 by exact Ht. reflexivity.
  - intros t src dg Ht. unfold ViewInfo_diagonal.
    rewrite bool_decide_eq_false_2 by exact Ht. reflexivity.
  - intros. repeat split.
  - intros v d raw Hk. unfold ApplyViewInfo. rewrite Hk. reflexivity.
  - intros root tmp_values i d result raw Hk. unfold backward_step.
    rewrite Hk. reflexivity.
  - intros root u d raw Hin Hk. unfold ApplyUpdate.
    destruct (forward_loop_unknown_kind _ [root] _ _ Hin Hk) as [f Hf].
    rewrite Hf. simpl. eauto.
  - intros update chain d raw Hin Hk.
    exact (view_loop_unknown_kind chain update d raw Hin Hk).
Qed.

(** *** [Scalar] nodes are never reused *)

Lemma reuse_lookup_never_hits
    (at_Scalar : Type) (cs : list (N * Scalar at_Scalar)) (value : at_Scalar)
    (sh : Shape) :
  reuse_lookup cs value sh
  = match cs with
    | [] => Ok None
    | _ :: _ =>
        Fatal (InternalAssertFailed "Reusing Scalar nodes is unsupported"
                 None)
    end.
Proof. destruct cs as [|[handle node] rest]; reflexivity. Qed.


End Properties.

(** * Further properties of the view engine *)

Section MoreProperties.

Context `{ops : ViewOps}.

Local Arguments List.last : simpl never.

(** ** The two loops of [ApplyUpdate] *)

Lemma vector_back_snoc {A : Type} (l : list A) (x : A) :
  vector_back (l ++ [x]) = Ok x.
Proof. unfold vector_back. rewrite last_snoc. reflexivity. Qed.

Lemma forward_loop_values
    (chain : list ViewInfo) (tmp_values : list Value) (cur : Value) :
  last tmp_values = Some cur ->
  forward_loop tmp_values chain
  = let* vs := forward_values cur chain in Ok (tmp_values ++ vs).
Proof.
  revert tmp_values cur.
  induction chain as [|d chain IH]; intros tmp_values cur Hlast; simpl.
  - rewrite app_nil_r. reflexivity.
  - unfold vector_back. rewrite Hlast. simpl.
    destruct (ApplyViewInfo cur d) as [v|f]; simpl; [|reflexivity].
    rewrite (IH (tmp_values ++ [v]) v) by apply last_snoc.
    destruct (forward_values v chain) as [vs|f]; simpl; [|reflexivity].
    rewrite <- app_assoc. reflexivity.
Qed.

Lemma forward_values_length (chain : list ViewInfo) (cur : Value)
    (vs : list Value) :
  forward_values cur chain = Ok vs -> length vs = length chain.
Proof.
  revert cur vs. induction chain as [|d chain IH]; intros cur vs; simpl.
  - intros [= <-]. reflexivity.
  - destruct (ApplyViewInfo cur d) as [v|f]; simpl; [|discriminate].
    destruct (forward_values v chain) as [vs'|f] eqn:Hvs; simpl;
      [|discriminate].
    intros [= <-]. simpl. f_equal. eapply IH. exact Hvs.
Qed.

Lemma forward_values_app (c1 c2 : list ViewInfo) (cur : Value) :
  forward_values cur (c1 ++ c2)
  = let* v1 := forward_values cur c1 in
    let* v2 := forward_values (List.last v1 cur) c2 in
    Ok (v1 ++ v2).
Proof.
  revert cur. induction c1 as [|d c1 IH]; intros cur; simpl.
  - change (List.last [] cur) with cur.
    destruct (forward_values cur c2); reflexivity.
  - destruct (ApplyViewInfo cur d) as [v|f]; simpl; [|reflexivity].
    rewrite IH.
    destruct (forward_values v c1) as [v1|f]; simpl; [|reflexivity].
    replace (List.last (v :: v1) cur) with (List.last v1 v).
    + destruct (forward_values (List.last v1 v) c2); reflexivity.
    + destruct v1 as [|x v1]; [reflexivity|].
      change (List.last (v :: x :: v1) cur) with (List.last (x :: v1) cur).
      apply last_default_irrelevant.
Qed.

Lemma view_loop_forward_values (chain : list ViewInfo) (cur : Value) :
  view_loop cur chain
  = let* vs := forward_values cur chain in Ok (List.last vs cur).
Proof.
  revert cur. induction chain as [|d chain IH]; intros cur; simpl.
  - reflexivity.
  - destruct (ApplyViewInfo cur d) as [v|f]; simpl; [|reflexivity].
    rewrite IH.
    destruct (forward_values v chain) as [vs|f]; simpl; [|reflexivity].
    destruct vs as [|x vs]; [reflexivity|].
    f_equal. change (List.last (v :: x :: vs) cur)
               with (List.last (x :: vs) cur).
    apply last_default_irrelevant.
Qed.

Lemma view_loop_app (c1 c2 : list ViewInfo) (cur : Value) :
  view_loop cur (c1 ++ c2)
  = let* mid := view_loop cur c1 in view_loop mid c2.
Proof.
  revert cur. induction c1 as [|d c1 IH]; intros cur; simpl.
  - reflexivity.
  - destruct (ApplyViewInfo cur d) as [v|f]; simpl; [apply IH|reflexivity].
Qed.

Lemma forward_values_lookup
    (chain : list ViewInfo) (cur : Value) (vs : list Value) (k : nat) :
  forward_values cur chain = Ok vs ->
  (k <= length chain)%nat ->
  exists x, (cur :: vs) !! k = Some x
            /\ view_loop cur (take k chain) = Ok x.
Proof.
  revert cur vs k.
  induction chain as [|d chain IH]; intros cur vs k Hvs Hk.
  - simpl in Hk. assert (k = 0%nat) as -> by lia. simpl. eauto.
  - destruct k as [|k]; [simpl; eauto|].
    simpl in Hvs |- *.
    destruct (ApplyViewInfo cur d) as [v|f]; simpl in *; [|discriminate].
    destruct (forward_values v chain) as [vs'|f] eqn:Hvs'; simpl in *;
      [|discriminate].
    injection Hvs as <-.
    apply (IH v vs' k Hvs'). lia.
Qed.

Lemma ApplyUpdate_unfold (root u : Value) (chain : list ViewInfo) :
  ApplyUpdate root {| ir_value := u; view_infos := chain |}
  = let* vs := forward_values root chain in
    backward_loop root chain (root :: vs) (length chain) u.
Proof.
  unfold ApplyUpdate; simpl.
  rewrite (forward_loop_values chain [root] root) by reflexivity.
  destruct (forward_values root chain); reflexivity.
Qed.

(** X1.  The first loop of [ApplyUpdate] records the root and, after it,
    the root seen through ever longer prefixes of the chain: when it
    returns [tmp_values], there is one more value than descriptors, entry 0
    is the root, entry [k] is what the forward loop of [GetViewIrNode]
    computes for the first [k] descriptors, and the last entry is the fully
    viewed value. *)
Theorem forward_loop_records_prefixes
    (root : Value) (chain : list ViewInfo) (tmp_values : list Value) :
  forward_loop [root] chain = Ok tmp_values ->
  length tmp_values = S (length chain)
  /\ tmp_values !! 0%nat = Some root
  /\ (forall k, (k <= length chain)%nat ->
        exists x, tmp_values !! k = Some x
                  /\ view_loop root (take k chain) = Ok x)
  /\ view_loop root chain = vector_back tmp_values.
Proof.
  rewrite (forward_loop_values chain [root] root) by reflexivity.
  destruct (forward_values root chain) as [vs|f] eqn:Hvs; simpl;
    [|discriminate].
  intros [= <-].
  split; [|split; [|split]].
  - simpl. f_equal. eapply forward_values_length. exact Hvs.
  - reflexivity.
  - intros k Hk. exact (forward_values_lookup chain root vs k Hvs Hk).
  - rewrite view_loop_forward_values, Hvs. simpl.
    unfold vector_back.
    destruct vs as [|x vs]; [reflexivity|].
    change (last (root :: x :: vs)) with (last (x :: vs)).
    assert (Hl : forall (l : list Value) (y d : Value),
               last (y :: l) = Some (List.last (y :: l) d)).
    { induction l as [|z l IHl]; intros y d; [reflexivity|].
      change (last (y :: z :: l)) with (last (z :: l)).
      change (List.last (y :: z :: l) d) with (List.last (z :: l) d).
      apply IHl. }
    rewrite (Hl vs x root). reflexivity.
Qed.

(** *** Which chains replay *)

Lemma ApplyViewInfo_Ok_iff (v : Value) (d : ViewInfo) :
  is_Ok (ApplyViewInfo v d) <-> dispatchable d = true.
Proof.
  unfold ApplyViewInfo, dispatchable.
  destruct (view_type d); simpl; try tauto;
    try (destruct (select d)); try (destruct (as_strided d));
    try (destruct (diagonal d)); simpl;
    (split; intros H; solve [exact I | reflexivity | contradiction
                            | discriminate]).
Qed.

Lemma forward_values_Ok_iff (chain : list ViewInfo) (cur : Value) :
  is_Ok (forward_values cur chain)
  <-> Forall (fun d => dispatchable d = true) chain.
Proof.
  revert cur. induction chain as [|d chain IH]; intros cur; simpl.
  - split; [intros _; constructor | tauto].
  - rewrite Forall_cons, <- (ApplyViewInfo_Ok_iff cur d).
    destruct (ApplyViewInfo cur d) as [v|f]; simpl; [|tauto].
    rewrite <- (IH v).
    destruct (forward_values v chain); simpl; tauto.
Qed.

Lemma backward_step_Ok
    (root : Value) (tmp_values : list Value) (i : nat) (d : ViewInfo)
    (result : Value) :
  dispatchable d = true ->
  is_Some (tmp_values !! (i - 1)%nat) ->
  is_Ok (backward_step root tmp_values i d result).
Proof.
  intros Hd [target Ht]. unfold backward_step, vector_at. rewrite Ht.
  unfold dispatchable in Hd.
  destruct (view_type d); simpl; try exact I; try discriminate.
  - destruct (select d); simpl; [exact I|].
    apply bool_decide_eq_true_1 in Hd. congruence.
  - destruct (as_strided d); simpl; [exact I|].
    apply bool_decide_eq_true_1 in Hd. congruence.
  - destruct (diagonal d); simpl; [exact I|].
    apply bool_decide_eq_true_1 in Hd. congruence.
Qed.

Lemma backward_loop_Ok
    (root : Value) (chain : list ViewInfo) (tmp_values : list Value)
    (i : nat) (result : Value) :
  Forall (fun d => dispatchable d = true) chain ->
  (i <= length chain)%nat ->
  (i <= length tmp_values)%nat ->
  is_Ok (backward_loop root chain tmp_values i result).
Proof.
  intros Hall. revert result.
  induction i as [|j IH]; intros result Hc Ht; [exact I|].
  cbn [backward_loop].
  replace (S j - 1)%nat with j by lia.
  destruct (lookup_lt_is_Some_2 chain j ltac:(lia)) as [d Hd].
  unfold vector_at at 1. rewrite Hd. simpl.
  pose proof (proj1 (Forall_lookup _ _) Hall j d Hd) as Hdisp.
  pose proof (backward_step_Ok root tmp_values (S j) d result Hdisp) as Hs.
  replace (S j - 1)%nat with j in Hs by lia.
  specialize (Hs (lookup_lt_is_Some_2 tmp_values j ltac:(lia))).
  destruct (backward_step root tmp_values (S j) d result) as [r|f];
    simpl in *; [|contradiction].
  apply IH; lia.
Qed.

(** X2.  [ApplyUpdate] returns exactly for the chains all of whose
    descriptors are dispatchable (a kind of the enumeration, and the
    [SelectInfo], [AsStridedInfo] or [DiagonalInfo] in place when the kind
    is Select, AsStrided or Diagonal); the root and the update value play
    no part in that.  The forward loop of [GetViewIrNode] returns for the
    same chains. *)
Theorem ApplyUpdate_returns_iff_dispatchable
    (root u : Value) (chain : list ViewInfo) :
  (is_Ok (ApplyUpdate root {| ir_value := u; view_infos := chain |})
   <-> Forall (fun d => dispatchable d = true) chain)
  /\ (is_Ok (view_loop root chain)
      <-> Forall (fun d => dispatchable d = true) chain).
Proof.
  split.
  - rewrite ApplyUpdate_unfold, <- (forward_values_Ok_iff chain root).
    destruct (forward_values root chain) as [vs|f] eqn:Hvs; simpl;
      [|tauto].
    split; [tauto|]. intros _.
    apply backward_loop_Ok.
    + apply (forward_values_Ok_iff chain root). rewrite Hvs. exact I.
    + lia.
    + simpl. rewrite (forward_values_length chain root vs Hvs). lia.
  - rewrite view_loop_forward_values, <- (forward_values_Ok_iff chain root).
    destruct (forward_values root chain); simpl; tauto.
Qed.

(** *** Chains in two parts *)

Lemma backward_step_target
    (root : Value) (tmp tmp' : list Value) (i i' : nat) (d : ViewInfo)
    (result : Value) :
  tmp !! (i - 1)%nat = tmp' !! (i' - 1)%nat ->
  backward_step root tmp i d result = backward_step root tmp' i' d result.
Proof.
  intros H. unfold backward_step, vector_at. rewrite H. reflexivity.
Qed.

Lemma backward_step_root_irrelevant
    (root root' : Value) (tmp : list Value) (i : nat) (d : ViewInfo)
    (result : Value) :
  is_squeeze_kind d = false ->
  backward_step root tmp i d result = backward_step root' tmp i d result.
Proof.
  unfold is_squeeze_kind, backward_step.
  destruct (view_type d); intros H; try reflexivity; discriminate.
Qed.

Lemma backward_loop_prefix
    (root : Value) (chain chain' : list ViewInfo) (tmp tmp' : list Value)
    (i : nat) (result : Value) :
  (forall j, (j < i)%nat -> chain !! j = chain' !! j) ->
  (forall j, (j < i)%nat -> tmp !! j = tmp' !! j) ->
  backward_loop root chain tmp i result
  = backward_loop root chain' tmp' i result.
Proof.
  revert result.
  induction i as [|j IH]; intros result Hc Ht; [reflexivity|].
  cbn [backward_loop].
  replace (S j - 1)%nat with j by lia.
  unfold vector_at. rewrite <- (Hc j) by lia.
  destruct (chain !! j) as [d|]; simpl; [|reflexivity].
  rewrite (backward_step_target root tmp tmp' (S j) (S j) d result)
    by (replace (S j - 1)%nat with j by lia; apply Ht; lia).
  destruct (backward_step root tmp' (S j) d result) as [r|f]; simpl;
    [|reflexivity].
  apply IH; intros; [apply Hc | apply Ht]; lia.
Qed.

Lemma backward_loop_root_irrelevant
    (root root' : Value) (chain : list ViewInfo) (tmp : list Value)
    (i : nat) (result : Value) :
  Forall (fun d => is_squeeze_kind d = false) chain ->
  backward_loop root chain tmp i result
  = backward_loop root' chain tmp i result.
Proof.
  intros Hall. revert result.
  induction i as [|j IH]; intros result; [reflexivity|].
  cbn [backward_loop].
  replace (S j - 1)%nat with j by lia.
  unfold vector_at.
  destruct (chain !! j) as [d|] eqn:Hd; simpl; [|reflexivity].
  rewrite (backward_step_root_irrelevant root root' tmp (S j) d result)
    by exact (proj1 (Forall_lookup _ _) Hall j d Hd).
  destruct (backward_step root' tmp (S j) d result); simpl;
    [apply IH | reflexivity].
Qed.

Lemma backward_loop_shift
    (root : Value) (c1 c2 : list ViewInfo) (t1 t2 : list Value) (k : nat)
    (result : Value) :
  length t1 = length c1 ->
  backward_loop root (c1 ++ c2) (t1 ++ t2) (length c1 + k) result
  = let* r := backward_loop root c2 t2 k result in
    backward_loop root (c1 ++ c2) (t1 ++ t2) (length c1) r.
Proof.
  intros Hlen. revert result.
  induction k as [|k IH]; intros result.
  - rewrite Nat.add_0_r. reflexivity.
  - rewrite Nat.add_succ_r. cbn [backward_loop].
    replace (S (length c1 + k) - 1)%nat with (length c1 + k)%nat by lia.
    replace (S k - 1)%nat with k by lia.
    unfold vector_at.
    rewrite (lookup_app_r c1 c2) by lia.
    replace (length c1 + k - length c1)%nat with k by lia.
    destruct (c2 !! k) as [d|]; simpl; [|reflexivity].
    rewrite (backward_step_target root (t1 ++ t2) t2
               (S (length c1 + k)) (S k) d result).
    + destruct (backward_step root t2 (S k) d result) as [r|f]; simpl;
        [apply IH | reflexivity].
    + replace (S (length c1 + k) - 1)%nat with (length c1 + k)%nat by lia.
      replace (S k - 1)%nat with k by lia.
      rewrite (lookup_app_r t1 t2) by lia.
      f_equal. lia.
Qed.

Lemma cons_last_split (l : list Value) (x : Value) :
  exists front,
    x :: l = front ++ [List.last l x] /\ length front = length l.
Proof.
  revert x. induction l as [|y l IH]; intros x.
  - exists []. split; reflexivity.
  - destruct (IH y) as (front & Hf & Hl).
    assert (He : List.last (y :: l) x = List.last l y).
    { destruct l as [|z l]; [reflexivity|].
      change (List.last (y :: z :: l) x) with (List.last (z :: l) x).
      apply last_default_irrelevant. }
    exists (x :: front). split.
    + rewrite He. simpl. f_equal. exact Hf.
    + simpl. f_equal. exact Hl.
Qed.

(** X3.  A write through a chain in two parts [c1 ++ c2], the second part
    free of Squeeze and Unsqueeze: replaying it against [root] is replaying
    the write through [c2] against the value [root] has behind [c1], and
    then replaying what that gives through [c1] against [root].  Outcomes
    agree failures included. *)
Theorem ApplyUpdate_app
    (root u : Value) (c1 c2 : list ViewInfo) :
  Forall (fun d => is_squeeze_kind d = false) c2 ->
  ApplyUpdate root {| ir_value := u; view_infos := c1 ++ c2 |}
  = let* mid := view_loop root c1 in
    let* inner := ApplyUpdate mid {| ir_value := u; view_infos := c2 |} in
    ApplyUpdate root {| ir_value := inner; view_infos := c1 |}.
Proof.
  intros Hsq.
  rewrite !ApplyUpdate_unfold, forward_values_app, view_loop_forward_values.
  destruct (forward_values root c1) as [v1|f] eqn:Hv1; simpl; [|reflexivity].
  rewrite ApplyUpdate_unfold.
  set (mid := List.last v1 root).
  destruct (forward_values mid c2) as [v2|f] eqn:Hv2; simpl; [|reflexivity].
  destruct (cons_last_split v1 root) as (front & Hfront & Hlen).
  fold mid in Hfront.
  rewrite (forward_values_length c1 root v1 Hv1) in Hlen.
  rewrite length_app.
  change (root :: v1 ++ v2) with ((root :: v1) ++ v2).
  rewrite Hfront, <- app_assoc. simpl.
  rewrite (backward_loop_shift root c1 c2 front (mid :: v2) (length c2) u)
    by exact Hlen.
  rewrite (backward_loop_root_irrelevant root mid c2) by exact Hsq.
  destruct (backward_loop mid c2 (mid :: v2) (length c2) u) as [r|f]; simpl;
    [|reflexivity].
  rewrite ApplyUpdate_unfold, Hv1. simpl. rewrite Hfront.
  apply backward_loop_prefix.
  - intros j Hj. apply lookup_app_l. exact Hj.
  - intros j Hj. rewrite !lookup_app_l by lia. reflexivity.
Qed.

(** X4.  A NoOp descriptor is transparent wherever it stands in a chain:
    with or without it, the forward loop gives the same value and
    [ApplyUpdate] the same outcome. *)
Theorem NoOp_is_transparent
    (root u : Value) (c1 c2 : list ViewInfo) (d : ViewInfo) :
  view_type d = kNoOp ->
  view_loop root (c1 ++ d :: c2) = view_loop root (c1 ++ c2)
  /\ ApplyUpdate root {| ir_value := u; view_infos := c1 ++ d :: c2 |}
     = ApplyUpdate root {| ir_value := u; view_infos := c1 ++ c2 |}.
Proof.
  intros Hd.
  assert (Hfwd : forall v, ApplyViewInfo v d = Ok v).
  { intros v. unfold ApplyViewInfo. rewrite Hd. reflexivity. }
  split.
  - rewrite !view_loop_app.
    destruct (view_loop root c1) as [mid|f]; simpl; [|reflexivity].
    rewrite Hfwd. reflexivity.
  - rewrite !ApplyUpdate_unfold, !forward_values_app.
    destruct (forward_values root c1) as [v1|f] eqn:Hv1; simpl;
      [|reflexivity].
    set (mid := List.last v1 root).
    rewrite Hfwd. simpl.
    destruct (forward_values mid c2) as [v2|f] eqn:Hv2; simpl;
      [|reflexivity].
    destruct (cons_last_split v1 root) as (front & Hfront & Hlen).
    fold mid in Hfront.
    rewrite (forward_values_length c1 root v1 Hv1) in Hlen.
    rewrite !length_app.
    change (root :: v1 ++ mid :: v2) with ((root :: v1) ++ mid :: v2).
    change (root :: v1 ++ v2) with ((root :: v1) ++ v2).
    rewrite Hfront, <- !app_assoc. simpl.
    change (c1 ++ d :: c2) with (c1 ++ [d] ++ c2).
    rewrite (app_assoc c1 [d] c2).
    change (front ++ mid :: mid :: v2) with (front ++ [mid] ++ mid :: v2).
    rewrite (app_assoc front [mid] (mid :: v2)).
    replace (length c1 + S (length c2))%nat
      with (length (c1 ++ [d]) + length c2)%nat
      by (rewrite length_app; simpl; lia).
    rewrite (backward_loop_shift root (c1 ++ [d]) c2 (front ++ [mid])
               (mid :: v2) (length c2) u)
      by (rewrite !length_app; simpl; lia).
    rewrite (backward_loop_shift root c1 c2 front (mid :: v2) (length c2) u)
      by exact Hlen.
    destruct (backward_loop root c2 (mid :: v2) (length c2) u) as [r|f];
      simpl; [|reflexivity].
    rewrite length_app. simpl.
    replace (length c1 + 1)%nat with (S (length c1)) by lia.
    cbn [backward_loop].
    replace (S (length c1) - 1)%nat with (length c1) by lia.
    unfold vector_at at 1.
    rewrite <- (app_assoc c1 [d] c2).
    rewrite (lookup_app_r c1) by lia.
    replace (length c1 - length c1)%nat with 0%nat by lia. simpl.
    unfold backward_step at 1. rewrite Hd. simpl.
    apply backward_loop_prefix.
    + intros j Hj. rewrite !lookup_app_l by lia. reflexivity.
    + intros j Hj. rewrite <- (app_assoc front [mid]).
      rewrite !lookup_app_l by lia. reflexivity.
Qed.

(** ** The pending queue *)

Lemma Alias_Update_other_chain
    (a : Alias) (v : Value) (chain : list ViewInfo)
    (pre : list UpdateData) (back : UpdateData) :
  updates_ a = pre ++ [back] ->
  view_infos back <> chain ->
  updates_ (Alias_Update a v chain)
  = updates_ a ++ [{| ir_value := v; view_infos := chain |}].
Proof.
  intros Hq Hc. unfold Alias_Update; simpl.
  rewrite Hq, last_snoc, bool_decide_eq_false_2 by assumption.
  reflexivity.
Qed.

Lemma Alias_Update_value_irrelevant
    (a : Alias) (v v' : Value) (chain : list ViewInfo)
    (pre : list UpdateData) :
  updates_ (Alias_Update a v chain)
    = pre ++ [{| ir_value := v; view_infos := chain |}] ->
  updates_ (Alias_Update a v' chain)
    = pre ++ [{| ir_value := v'; view_infos := chain |}].
Proof.
  unfold Alias_Update; simpl.
  destruct (last (updates_ a)) as [back|] eqn:Hlast.
  - apply last_Some in Hlast as [pre0 Hpre0].
    destruct (bool_decide (view_infos back = chain)) eqn:Hc.
    + rewrite Hpre0, !set_back_ir_value_snoc.
      intros H. apply app_inj_tail in H as [-> _].
      apply bool_decide_eq_true_1 in Hc. rewrite Hc. reflexivity.
    + intros H. apply app_inj_tail in H as [-> _]. reflexivity.
  - intros H. apply app_inj_tail in H as [-> _]. reflexivity.
Qed.

(** X5.  Writes with one chain that are separated by a write with another
    chain are all kept: after writes with chains [c], [d], [c] (with [d]
    other than [c]) the queue ends with three entries in that order, the
    first write's value still in place, and the generation has grown by
    three. *)
Theorem Alias_Update_interleaved_writes_kept
    (a : Alias) (v1 v2 v3 : Value) (c d : list ViewInfo) :
  c <> d ->
  let a3 := Alias_Update (Alias_Update (Alias_Update a v1 c) v2 d) v3 c in
  generation_ a3 = (generation_ a + 3)%N
  /\ exists pre,
       updates_ (Alias_Update a v1 c)
         = pre ++ [{| ir_value := v1; view_infos := c |}]
       /\ updates_ a3
          = pre ++ [{| ir_value := v1; view_infos := c |};
                    {| ir_value := v2; view_infos := d |};
                    {| ir_value := v3; view_infos := c |}].
Proof.
  intros Hcd a3. split; [subst a3; simpl; lia|].
  destruct (Alias_Update_ends_with a v1 c) as [pre Hpre].
  exists pre. split; [exact Hpre|].
  subst a3.
  remember (Alias_Update a v1 c) as a1 eqn:Ea1. clear Ea1.
  assert (H2 : updates_ (Alias_Update a1 v2 d)
               = (pre ++ [{| ir_value := v1; view_infos := c |}])
                 ++ [{| ir_value := v2; view_infos := d |}]).
  { rewrite <- Hpre.
    apply (Alias_Update_other_chain a1 v2 d pre _ Hpre). exact Hcd. }
  remember (Alias_Update a1 v2 d) as a2 eqn:Ea2. clear Ea2.
  rewrite (Alias_Update_other_chain a2 v3 c _ _ H2)
    by (cbn [view_infos]; congruence).
  rewrite H2, <- !app_assoc. reflexivity.
Qed.

(** X6.  A run of writes with one chain leaves the alias as the last write
    alone would have left it, but for the generation, which counts every
    write of the run: same root, same queue (so the same outcome of the
    next sync), and the queue is as long as after the first write. *)
Theorem Alias_Update_run_is_last_write
    (a : Alias) (chain : list ViewInfo) (v0 : Value) (vs : list Value) :
  let first := Alias_Update a v0 chain in
  let final := fold_left (fun acc v => Alias_Update acc v chain) vs first in
  let only_last := Alias_Update a (List.last vs v0) chain in
  updates_ final = updates_ only_last
  /\ root_ir_value_ final = root_ir_value_ only_last
  /\ generation_ final = (generation_ a + 1 + N.of_nat (length vs))%N
  /\ length (updates_ final) = length (updates_ first)
  /\ (let* p := Alias_SyncUpdateOperations final in Ok p.1)
     = (let* p := Alias_SyncUpdateOperations only_last in Ok p.1).
Proof.
  intros first final only_last.
  destruct (Alias_Update_ends_with a v0 chain) as [pre Hpre].
  destruct (Alias_Update_run_from chain vs first v0 pre Hpre) as [Hgen Hfin].
  fold final in Hgen, Hfin.
  pose proof (Alias_Update_value_irrelevant a v0 (List.last vs v0) chain pre
                Hpre) as Hlast.
  fold only_last in Hlast.
  assert (Hroot : root_ir_value_ final = root_ir_value_ only_last).
  { assert (Hfold : forall (l : list Value) (b : Alias),
              root_ir_value_
                (fold_left (fun acc v => Alias_Update acc v chain) l b)
              = root_ir_value_ b).
    { induction l as [|v l IH]; intros b; [reflexivity|].
      simpl. rewrite IH. reflexivity. }
    subst final. rewrite Hfold. reflexivity. }
  assert (Hq : updates_ final = updates_ only_last) by congruence.
  split; [exact Hq|]. split; [exact Hroot|]. split; [exact Hgen|]. split.
  - rewrite Hfin. fold first in Hpre. rewrite Hpre, !length_app.
    reflexivity.
  - unfold Alias_SyncUpdateOperations. rewrite Hq, Hroot.
    destruct (sync_loop (root_ir_value_ only_last) (updates_ only_last));
      reflexivity.
Qed.

(** X7.  A sync between writes: when the write is appended to the queue
    (the queue is empty or ends with another chain), syncing before the
    write and again after it gives what one sync after the write gives. *)
Theorem sync_before_appended_write
    (a : Alias) (v : Value) (chain : list ViewInfo) :
  match last (updates_ a) with
  | Some back => view_infos back <> chain
  | None => True
  end ->
  Alias_SyncUpdateOperations (Alias_Update a v chain)
  = let* (_, synced) := Alias_SyncUpdateOperations a in
    Alias_SyncUpdateOperations (Alias_Update synced v chain).
Proof.
  intros Hlast.
  assert (Hq : updates_ (Alias_Update a v chain)
               = updates_ a ++ [{| ir_value := v; view_infos := chain |}]).
  { unfold Alias_Update; simpl.
    destruct (last (updates_ a)) as [back|]; [|reflexivity].
    rewrite bool_decide_eq_false_2 by exact Hlast. reflexivity. }
  unfold Alias_SyncUpdateOperations at 1 2. rewrite Hq. simpl.
  rewrite sync_loop_app.
  destruct (sync_loop (root_ir_value_ a) (updates_ a)) as [r|f]; simpl;
    reflexivity.
Qed.

(** ** Views and the store of aliases *)

(** X8.  [LazyView::Update] returns exactly when the view's alias is in the
    store; it then changes the store at that address only, and there only
    the queue and the generation: the root stays, the generation grows by
    one, and the queue ends with the written value under the view's
    chain. *)
Theorem LazyView_Update_frame
    (v : LazyView) (u : Value) (h : gmap N Alias) :
  (is_Ok (LazyView_Update v u h) <-> is_Some (h !! alias_ v))
  /\ (forall h',
        LazyView_Update v u h = Ok h' ->
        (forall l, l <> alias_ v -> h' !! l = h !! l)
        /\ exists a a',
             h !! alias_ v = Some a
             /\ h' !! alias_ v = Some a'
             /\ root_ir_value_ a' = root_ir_value_ a
             /\ generation_ a' = (generation_ a + 1)%N
             /\ last (updates_ a')
                = Some {| ir_value := u; view_infos := view_infos_ v |}).
Proof.
  unfold LazyView_Update. split.
  - destruct (h !! alias_ v) as [a|]; simpl.
    + split; [eauto | intros _; exact I].
    + split; [contradiction | intros [x Hx]; discriminate].
  - intros h'. destruct (h !! alias_ v) as [a|] eqn:Hl; simpl;
      [|discriminate].
    intros [= <-]. split.
    + intros l Hne. apply lookup_insert_ne. congruence.
    + exists a, (Alias_Update a u (view_infos_ v)).
      rewrite lookup_insert_eq.
      repeat split.
      destruct (Alias_Update_ends_with a u (view_infos_ v)) as [pre Hpre].
      rewrite Hpre. apply last_snoc.
Qed.

(** X9.  [GetViewIrNode], when it returns, leaves the view's chain, shape
    and alias address as they were and the other aliases of the store
    untouched; the view's alias keeps its generation, and its new root is
    the old root with the old queue replayed. *)
Theorem GetViewIrNode_frame
    (v : LazyView) (h : gmap N Alias) (value : Value) (changed : bool)
    (v' : LazyView) (h' : gmap N Alias) :
  LazyView_GetViewIrNode v h = Ok (value, changed, v', h') ->
  view_infos_ v' = view_infos_ v
  /\ shape_ v' = shape_ v
  /\ alias_ v' = alias_ v
  /\ (forall l, l <> alias_ v -> h' !! l = h !! l)
  /\ exists a a',
       h !! alias_ v = Some a
       /\ h' !! alias_ v = Some a'
       /\ generation_ a' = generation_ a
       /\ (changed = true ->
           updates_ a' = []
           /\ replay_spec (root_ir_value_ a) (updates_ a)
              = Ok (root_ir_value_ a'))
       /\ (changed = false -> a' = a).
Proof.
  unfold LazyView_GetViewIrNode.
  destruct (h !! alias_ v) as [a|] eqn:Hl; simpl; [|discriminate].
  destruct (IsUpToDate v a).
  - intros [= <- <- <- <-].
    repeat split; try reflexivity.
    exists a, a. repeat split; try assumption; discriminate.
  - destruct (Alias_SyncUpdateOperations a) as [[root a']|f] eqn:Hs; simpl;
      [|discriminate].
    destruct (view_loop root (view_infos_ v)) as [x|f]; simpl;
      [|discriminate].
    intros [= <- <- <- <-]. simpl.
    repeat split; try reflexivity.
    + intros l Hne. apply lookup_insert_ne. congruence.
    + exists a, a'. rewrite lookup_insert_eq.
      pose proof (Alias_SyncUpdateOperations_Ok a root a' Hs)
        as (Hr & Hq & Hg).
      repeat split; try assumption; try discriminate.
      unfold Alias_SyncUpdateOperations in Hs.
      rewrite sync_loop_replay_spec in Hs.
      destruct (replay_spec (root_ir_value_ a) (updates_ a)) as [r|f];
        simpl in Hs; [|discriminate].
      injection Hs as <- <-. reflexivity.
Qed.

(** *** The cache is never stale *)

Lemma forward_spec_view_loop (root : Value) (chain : list ViewInfo) :
  forward_spec root chain = view_loop root chain.
Proof. symmetry. apply view_loop_forward_spec. Qed.

(** X10.  In a store where a view's cache agrees with its alias
    ([cache_ok]), [GetViewIrNode] returns the view's chain applied to the
    alias's root with every pending write replayed, whether it answers from
    the cache or recomputes. *)
Theorem GetViewIrNode_reads_replayed_root
    (v : LazyView) (a : Alias) (h : gmap N Alias) (value : Value)
    (changed : bool) (v' : LazyView) (h' : gmap N Alias) :
  h !! alias_ v = Some a ->
  cache_ok v a ->
  LazyView_GetViewIrNode v h = Ok (value, changed, v', h') ->
  exists root',
    replay_spec (root_ir_value_ a) (updates_ a) = Ok root'
    /\ forward_spec root' (view_infos_ v) = Ok value.
Proof.
  intros Hl [Hle Hfresh].
  unfold LazyView_GetViewIrNode. rewrite Hl; simpl.
  destruct (IsUpToDate v a) eqn:Hup.
  - unfold IsUpToDate in Hup. apply andb_true_iff in Hup as [_ Hup].
    apply bool_decide_eq_true_1 in Hup.
    destruct (Hfresh Hup) as [Hq Hv].
    intros [= <- <- <- <-].
    exists (root_ir_value_ a). rewrite Hq. split; [reflexivity | exact Hv].
  - unfold Alias_SyncUpdateOperations.
    rewrite sync_loop_replay_spec.
    destruct (replay_spec (root_ir_value_ a) (updates_ a)) as [r|f]; simpl;
      [|discriminate].
    rewrite <- forward_spec_view_loop.
    destruct (forward_spec r (view_infos_ v)) as [x|f] eqn:Hx; simpl;
      [|discriminate].
    intros [= <- <- <- <-]. eauto.
Qed.

(** X11.  [cache_ok] is kept by everything that happens to a view's alias:
    a write through any view of the alias, a read of any view of the alias,
    and a read of the view itself (for the view as the read leaves it). *)
Theorem cache_ok_preserved
    (v w : LazyView) (a : Alias) (h : gmap N Alias) :
  alias_ w = alias_ v ->
  h !! alias_ v = Some a ->
  cache_ok v a ->
  (forall u h',
     LazyView_Update w u h = Ok h' ->
     exists a', h' !! alias_ v = Some a' /\ cache_ok v a')
  /\ (forall value changed w' h',
        LazyView_GetViewIrNode w h = Ok (value, changed, w', h') ->
        exists a', h' !! alias_ v = Some a' /\ cache_ok v a')
  /\ (forall value changed v' h',
        LazyView_GetViewIrNode v h = Ok (value, changed, v', h') ->
        exists a', h' !! alias_ v = Some a' /\ cache_ok v' a').
Proof.
  intros Hal Hl [Hle Hfresh]. split; [|split].
  - intros u h'. unfold LazyView_Update. rewrite Hal, Hl; simpl.
    intros [= <-]. eexists. rewrite lookup_insert_eq. split; [reflexivity|].
    split; simpl; [lia|]. intros Heq. exfalso. lia.
  - intros value changed w' h'.
    unfold LazyView_GetViewIrNode. rewrite Hal, Hl; simpl.
    destruct (IsUpToDate w a).
    + intros [= <- <- <- <-]. exists a. split; [exact Hl|].
      split; assumption.
    + destruct (Alias_SyncUpdateOperations a) as [[root a']|f] eqn:Hs;
        simpl; [|discriminate].
      destruct (view_loop root (view_infos_ w)) as [x|f]; simpl;
        [|discriminate].
      intros [= <- <- <- <-]. exists a'. rewrite lookup_insert_eq.
      split; [reflexivity|].
      pose proof (Alias_SyncUpdateOperations_Ok a root a' Hs)
        as (Hr & Hq & Hg).
      split; [rewrite Hg; exact Hle|].
      rewrite Hg. intros Heq. destruct (Hfresh Heq) as [Hqa Hva].
      split; [exact Hq|].
      unfold Alias_SyncUpdateOperations in Hs. rewrite Hqa in Hs.
      simpl in Hs. injection Hs as <- <-. exact Hva.
  - intros value changed v' h'.
    unfold LazyView_GetViewIrNode. rewrite Hl; simpl.
    destruct (IsUpToDate v a).
    + intros [= <- <- <- <-]. exists a. split; [exact Hl|].
      split; assumption.
    + destruct (Alias_SyncUpdateOperations a) as [[root a']|f] eqn:Hs;
        simpl; [|discriminate].
      destruct (view_loop root (view_infos_ v)) as [x|f] eqn:Hx; simpl;
        [|discriminate].
      intros [= <- <- <- <-]. exists a'. rewrite lookup_insert_eq.
      split; [reflexivity|].
      pose proof (Alias_SyncUpdateOperations_Ok a root a' Hs)
        as (Hr & Hq & Hg).
      split; simpl; [unfold Alias_generation; lia|].
      intros _. split; [exact Hq|].
      rewrite Hr, forward_spec_view_loop. exact Hx.
Qed.

(** X12.  A sub-view sees its parent's value through its descriptor: in a
    store where the parent's cache agrees with the alias, reading the
    sub-view that [CreateSubView] has just made gives the descriptor
    applied to what reading the parent gives; outcomes agree failures
    included. *)
Theorem sub_view_reads_parent_through_descriptor
    (parent : LazyView) (a : Alias) (h : gmap N Alias) (sh : Shape)
    (d : ViewInfo) :
  h !! alias_ parent = Some a ->
  cache_ok parent a ->
  let sub := (LazyView_CreateSubView parent sh d h).1 in
  (let* r := LazyView_GetViewIrNode sub h in Ok (returned_value r))
  = (let* r := LazyView_GetViewIrNode parent h in
     ApplyViewInfo (returned_value r) d).
Proof.
  intros Hl [Hle Hfresh] sub.
  assert (Hsub : LazyView_GetViewIrNode sub h = resync sub a h).
  { apply GetViewIrNode_no_cache; [exact Hl | reflexivity]. }
  rewrite Hsub. unfold resync.
  unfold LazyView_GetViewIrNode. rewrite Hl; simpl.
  assert (Hchain : forall root,
            forward_spec root (view_infos_ sub)
            = let* x := view_loop root (view_infos_ parent) in
              ApplyViewInfo x d).
  { intros root. rewrite forward_spec_view_loop. subst sub. simpl.
    rewrite view_loop_app.
    destruct (view_loop root (view_infos_ parent)) as [x|f]; simpl;
      [|reflexivity].
    destruct (ApplyViewInfo x d); reflexivity. }
  destruct (IsUpToDate parent a) eqn:Hup.
  - unfold IsUpToDate in Hup. apply andb_true_iff in Hup as [_ Hup].
    apply bool_decide_eq_true_1 in Hup.
    destruct (Hfresh Hup) as [Hq Hv].
    unfold Alias_SyncUpdateOperations. rewrite Hq. simpl.
    rewrite Hchain, <- forward_spec_view_loop, Hv.
    unfold returned_value. simpl.
    destruct (ApplyViewInfo (ir_value_ parent) d); reflexivity.
  - destruct (Alias_SyncUpdateOperations a) as [[root a']|f]; simpl;
      [|reflexivity].
    rewrite Hchain.
    destruct (view_loop root (view_infos_ parent)) as [x|f]; simpl;
      [|reflexivity].
    unfold returned_value. simpl.
    destruct (ApplyViewInfo x d); reflexivity.
Qed.

(** ** Descriptors as the constructors build them *)

(** X13.  Whatever a constructor with a payload returns is dispatchable and
    of the payload's kind, so chains of such descriptors always replay.
    The constructor without payload returns a descriptor for every kind,
    with one zero index per source dimension; it is dispatchable unless the kind is Select, AsStrided or Diagonal
    (then the forward dispatch reads through an empty optional) or outside
    the enumeration. *)
Theorem constructed_descriptors_dispatch :
  (forall t sh src sqi d,
     ViewInfo_squeeze t sh src sqi = Ok d ->
     view_type d = kSqueeze /\ dispatchable d = true)
  /\ (forall t src perm d,
       ViewInfo_permute t src perm = Ok d ->
       view_type d = kPermute /\ dispatchable d = true)
  /\ (forall t src sel d,
       ViewInfo_select t src sel = Ok d ->
       view_type d = kSelect /\ dispatchable d = true)
  /\ (forall t sh src st d,
       ViewInfo_as_strided t sh src st = Ok d ->
       view_type d = kAsStrided /\ dispatchable d = true)
  /\ (forall t src dg d,
       ViewInfo_diagonal t src dg = Ok d ->
       view_type d = kDiagonal /\ dispatchable d = true)
  /\ (forall t sh src,
       exists d,
         ViewInfo_plain t sh src = Ok d
         /\ view_type d = t
         /\ indices d = repeat 0 (length (sizes src))
         /\ (dispatchable d = false
             <-> t = kSelect \/ t = kAsStrided \/ t = kDiagonal
                 \/ exists raw, t = kOther raw)
         /\ (t = kSelect \/ t = kAsStrided \/ t = kDiagonal ->
             forall v, ApplyViewInfo v d = Fatal BadAccess)).
Proof.
  repeat apply conj.
  - intros t sh src sqi d. unfold ViewInfo_squeeze.
    destruct (bool_decide (t = kSqueeze)) eqn:Ht; simpl; [|discriminate].
    apply bool_decide_eq_true_1 in Ht. subst t.
    intros [= <-]. split; reflexivity.
  - intros t src perm d. unfold ViewInfo_permute.
    destruct (bool_decide (t = kPermute)) eqn:Ht; simpl; [|discriminate].
    apply bool_decide_eq_true_1 in Ht. subst t.
    intros [= <-]. split; reflexivity.
  - intros t src sel d. unfold ViewInfo_select.
    destruct (bool_decide (t = kSelect)) eqn:Ht; simpl; [|discriminate].
    apply bool_decide_eq_true_1 in Ht. subst t.
    intros [= <-]. split; reflexivity.
  - intros t sh src st d. unfold ViewInfo_as_strided.
    destruct (bool_decide (t = kAsStrided)) eqn:Ht; simpl; [|discriminate].
    apply bool_decide_eq_true_1 in Ht. subst t.
    intros [= <-]. split; reflexivity.
  - intros t src dg d. unfold ViewInfo_diagonal.
    destruct (bool_decide (t = kDiagonal)) eqn:Ht; simpl; [|discriminate].
    apply bool_decide_eq_true_1 in Ht. subst t.
    intros [= <-]. split; reflexivity.
  - intros t sh src. eexists. split; [reflexivity|].
    split; [reflexivity|]. split; [reflexivity|]. split.
    + unfold dispatchable; simpl.
      destruct t; simpl; split; intros H; try discriminate;
        try reflexivity; eauto 6;
        destruct H as [H|[H|[H|[raw H]]]]; discriminate.
    + intros Ht v. unfold ApplyViewInfo; simpl.
      destruct Ht as [->|[->| ->]]; reflexivity.
Qed.

(** ** Reuse tests of the view-update nodes *)

(** X14.  [SelectViewUpdate::Equal] on the node made from a target, a
    source and four parameters answers [true] for exactly those six
    arguments and [false] for all others; on a node without operands it
    does not answer. *)
Theorem SelectViewUpdate_Equal_exact
    (target source : Value) (dim start end_ stride : Z)
    (target' source' : Value) (dim' start' end' stride' : Z) :
  let node := SelectViewUpdate_ctor target source dim start end_ stride in
  SelectViewUpdate_Equal node target' source' dim' start' end' stride'
  = Ok (bool_decide
          (SelectViewUpdate ltc_select_view_update target source
             dim start end_ stride
           = SelectViewUpdate ltc_select_view_update target' source'
               dim' start' end' stride'))
  /\ SelectViewUpdate_Equal node target source dim start end_ stride
     = Ok true
  /\ SelectViewUpdate_Equal
       {| svu_operands := []; svu_dim_ := dim; svu_start_ := start;
          svu_end_ := end_; svu_stride_ := stride |}
       target source dim start end_ stride
     = Fatal BadAccess.
Proof.
  intros node. split; [|split].
  - unfold SelectViewUpdate_Equal; simpl.
    repeat case_bool_decide; simpl; try reflexivity; congruence.
  - unfold SelectViewUpdate_Equal; simpl.
    rewrite !bool_decide_eq_true_2 by reflexivity. reflexivity.
  - reflexivity.
Qed.

(** X15.  [AsStridedViewUpdate::Equal] on the node made from a target, an
    input, a size, a stride and a storage offset answers [true] for exactly
    those five arguments and [false] for all others; on a node without
    operands it does not answer. *)
Theorem AsStridedViewUpdate_Equal_exact
    (target input : Value) (size stride : list Z) (offset : Z)
    (target' input' : Value) (size' stride' : list Z) (offset' : Z) :
  let node := AsStridedViewUpdate_ctor target input size stride offset in
  AsStridedViewUpdate_Equal node target' input' size' stride' offset'
  = Ok (bool_decide
          (AsStridedViewUpdate ltc_as_strided_view_update target input
             size stride offset
           = AsStridedViewUpdate ltc_as_strided_view_update target' input'
               size' stride' offset'))
  /\ AsStridedViewUpdate_Equal node target input size stride offset
     = Ok true
  /\ AsStridedViewUpdate_Equal
       {| asvu_operands := []; asvu_size_ := size; asvu_stride_ := stride;
          asvu_storage_offset_ := offset |}
       target input size stride offset
     = Fatal BadAccess.
Proof.
  intros node. split; [|split].
  - unfold AsStridedViewUpdate_Equal; simpl.
    repeat case_bool_decide; simpl; try reflexivity; congruence.
  - unfold AsStridedViewUpdate_Equal; simpl.
    rewrite !bool_decide_eq_true_2 by reflexivity. reflexivity.
  - reflexivity.
Qed.

(** ** Chains with a Squeeze or an Unsqueeze *)

Lemma backward_step_outcome_kind
    (root : Value) (tmp : list Value) (i : nat) (d : ViewInfo)
    (r r' : Value) :
  same_outcome_kind (backward_step root tmp i d r)
                    (backward_step root tmp i d r').
Proof.
  unfold backward_step, vector_at.
  destruct (view_type d); simpl; try exact I; try reflexivity;
    destruct (tmp !! (i - 1)%nat); simpl; try exact I; try reflexivity.
  - destruct (select d); simpl; [exact I | reflexivity].
  - destruct (as_strided d); simpl; [exact I | reflexivity].
  - destruct (diagonal d); simpl; [exact I | reflexivity].
Qed.

Lemma backward_loop_outcome_kind
    (root : Value) (chain : list ViewInfo) (tmp : list Value) (i : nat)
    (r r' : Value) :
  same_outcome_kind (backward_loop root chain tmp i r)
                    (backward_loop root chain tmp i r').
Proof.
  revert r r'. induction i as [|j IH]; intros r r'; [exact I|].
  cbn [backward_loop]. unfold vector_at.
  destruct (chain !! (S j - 1)%nat) as [d|]; simpl; [|reflexivity].
  pose proof (backward_step_outcome_kind root tmp (S j) d r r') as Hs.
  destruct (backward_step root tmp (S j) d r) as [r1|f1],
           (backward_step root tmp (S j) d r') as [r1'|f1'];
    simpl in *; try contradiction; [apply IH | exact Hs].
Qed.

(** X21.  A chain that holds a Squeeze or an Unsqueeze descriptor loses the
    written value: the outcome of [ApplyUpdate] is the same for every
    update value. *)
Theorem ApplyUpdate_squeeze_chain_ignores_update
    (root u u' : Value) (c1 c2 : list ViewInfo) (d : ViewInfo) :
  is_squeeze_kind d = true ->
  ApplyUpdate root {| ir_value := u; view_infos := c1 ++ d :: c2 |}
  = ApplyUpdate root {| ir_value := u'; view_infos := c1 ++ d :: c2 |}.
Proof.
  intros Hd.
  rewrite !ApplyUpdate_unfold.
  destruct (forward_values root (c1 ++ d :: c2)) as [vs|f] eqn:Hvs; simpl;
    [|reflexivity].
  pose proof (forward_values_length _ _ _ Hvs) as Hlen.
  rewrite length_app in Hlen. simpl in Hlen.
  set (tmp := root :: vs).
  assert (Htmp : tmp = take (S (length c1)) tmp ++ drop (S (length c1)) tmp)
    by (symmetry; apply take_drop).
  assert (Hchain : c1 ++ d :: c2 = (c1 ++ [d]) ++ c2)
    by (rewrite <- app_assoc; reflexivity).
  rewrite Hchain, Htmp.
  replace (length ((c1 ++ [d]) ++ c2))
    with (length (c1 ++ [d]) + length c2)%nat by (rewrite !length_app; lia).
  assert (Hl1 : length (take (S (length c1)) tmp) = length (c1 ++ [d])).
  { rewrite length_take, length_app. subst tmp. simpl. lia. }
  rewrite !(backward_loop_shift root (c1 ++ [d]) c2 _ _ (length c2))
    by exact Hl1.
  set (t1 := take (S (length c1)) tmp).
  set (t2 := drop (S (length c1)) tmp).
  assert (Hconst : forall r r',
            backward_loop root ((c1 ++ [d]) ++ c2) (t1 ++ t2)
              (length (c1 ++ [d])) r
            = backward_loop root ((c1 ++ [d]) ++ c2) (t1 ++ t2)
                (length (c1 ++ [d])) r').
  { intros r r'. rewrite length_app. simpl.
    replace (length c1 + 1)%nat with (S (length c1)) by lia.
    cbn [backward_loop]. unfold vector_at.
    replace (S (length c1) - 1)%nat with (length c1) by lia.
    rewrite <- app_assoc, (lookup_app_r c1) by lia.
    replace (length c1 - length c1)%nat with 0%nat by lia. simpl.
    assert (Hstep : forall x x' tmp0 i0,
              backward_step root tmp0 i0 d x
              = backward_step root tmp0 i0 d x').
    { intros x x' tmp0 i0. unfold backward_step.
      unfold is_squeeze_kind in Hd.
      destruct (view_type d); try discriminate; reflexivity. }
    rewrite (Hstep r r'). reflexivity. }
  pose proof (backward_loop_outcome_kind root c2 t2 (length c2) u u') as Hk.
  destruct (backward_loop root c2 t2 (length c2) u) as [r|f],
           (backward_loop root c2 t2 (length c2) u') as [r'|f'];
    simpl in *; try contradiction.
  - apply Hconst.
  - congruence.
Qed.

End MoreProperties.

(** * The dimension loop of scatter and gather *)

Section DimLoopProperties.

Context {scalar_t : Type}.

Implicit Types (self_data src_data : gmap Z scalar_t) (index_data : gmap Z Z).
Implicit Types (f : scalar_t -> scalar_t -> scalar_t).

Lemma mul64_Ok (a b c : Z) : mul64 a b = Ok c -> c = a * b.
Proof.
  unfold mul64.
  destruct ((int64_min <=? a * b) && (a * b <=? int64_max));
    [intros [= <-]; reflexivity | discriminate].
Qed.

Lemma for_each_app {S : Type} (body : Z -> S -> Result S)
    (l1 l2 : list Z) (s : S) :
  for_each body (l1 ++ l2) s
  = let* s1 := for_each body l1 s in for_each body l2 s1.
Proof.
  revert s. induction l1 as [|i l1 IH]; intros s; simpl; [reflexivity|].
  destruct (body i s); simpl; [apply IH | reflexivity].
Qed.

Lemma elem_of_irange (n i : Z) : i ∈ irange n <-> 0 <= i < n.
Proof.
  unfold irange. rewrite list_elem_of_fmap. split.
  - intros (k & -> & Hk). apply elem_of_seq in Hk. lia.
  - intros Hi. exists (Z.to_nat i). split; [lia|].
    apply elem_of_seq. lia.
Qed.

Lemma NoDup_irange (n : Z) : NoDup (irange n).
Proof.
  unfold irange. apply NoDup_fmap_2; [|apply NoDup_seq].
  intros x y. lia.
Qed.

Lemma irange_split (n i : Z) :
  0 <= i < n ->
  exists rest, irange n = irange i ++ i :: rest.
Proof.
  intros Hi. unfold irange.
  replace (Z.to_nat n) with (Z.to_nat i + S (Z.to_nat n - S (Z.to_nat i)))%nat
    by lia.
  rewrite seq_app, map_app. simpl.
  rewrite Z2Nat.id by lia. eauto.
Qed.

(** What one iteration that returns has done. *)
Lemma dim_loop_body_Ok
    (is_scatter_like : bool) f (self_dim_stride : Z) index_data
    (index_dim_stride : Z) src_data (src_dim_stride index_upper_bound i : Z)
    self_data (self' : gmap Z scalar_t) :
  dim_loop_body is_scatter_like f self_dim_stride index_data
    index_dim_stride src_data src_dim_stride index_upper_bound i self_data
  = Ok self' ->
  exists idx s x,
    index_data !! (i * index_dim_stride) = Some idx
    /\ 0 <= idx < index_upper_bound
    /\ self_data !! ((if is_scatter_like then idx else i) * self_dim_stride)
       = Some s
    /\ src_data !! ((if is_scatter_like then i else idx) * src_dim_stride)
       = Some x
    /\ self'
       = <[(if is_scatter_like then idx else i) * self_dim_stride := f s x]>
           self_data.
Proof.
  unfold dim_loop_body, call_functor, TORCH_CHECK.
  destruct (mul64 i index_dim_stride) as [ioff|] eqn:Hio; simpl;
    [|discriminate].
  apply mul64_Ok in Hio. subst ioff.
  destruct (index_data !! (i * index_dim_stride)) as [idx|]; simpl;
    [|discriminate].
  destruct ((0 <=? idx) && (idx <? index_upper_bound)) eqn:Hb; simpl;
    [|discriminate].
  destruct (mul64 (if is_scatter_like then idx else i) self_dim_stride)
    as [soff|] eqn:Hso; simpl; [|discriminate].
  apply mul64_Ok in Hso. subst soff.
  destruct (mul64 (if is_scatter_like then i else idx) src_dim_stride)
    as [roff|] eqn:Hro; simpl; [|discriminate].
  apply mul64_Ok in Hro. subst roff.
  destruct (self_data !! _) as [s|] eqn:Hs; simpl; [|discriminate].
  destruct (src_data !! _) as [x|] eqn:Hx; simpl; [|discriminate].
  intros [= <-]. exists idx, s, x.
  repeat split; try assumption; try reflexivity; lia.
Qed.

Lemma for_each_dim_loop_bounds
    (is_scatter_like : bool) f (self_dim_stride : Z) index_data
    (index_dim_stride : Z) src_data (src_dim_stride index_upper_bound : Z)
    (l : list Z) self_data (self' : gmap Z scalar_t) :
  for_each
    (dim_loop_body is_scatter_like f self_dim_stride index_data
       index_dim_stride src_data src_dim_stride index_upper_bound)
    l self_data = Ok self' ->
  (forall i, i ∈ l ->
     exists idx, index_data !! (i * index_dim_stride) = Some idx
                 /\ 0 <= idx < index_upper_bound)
  /\ dom self' = dom self_data.
Proof.
  revert self_data.
  induction l as [|i0 l IH]; intros self_data; simpl.
  - intros [= <-]. split; [|reflexivity].
    intros i Hi. apply elem_of_nil in Hi. contradiction.
  - destruct (dim_loop_body _ _ _ _ _ _ _ _ i0 self_data) as [s1|] eqn:Hb;
      simpl; [|discriminate].
    intros Hrest.
    destruct (dim_loop_body_Ok _ _ _ _ _ _ _ _ _ _ _ Hb)
      as (idx & s & x & Hidx & Hrange & Hs & Hx & ->).
    destruct (IH _ Hrest) as [Hall Hdom].
    split.
    + intros i Hi. apply elem_of_cons in Hi as [->|Hi]; eauto.
    + rewrite Hdom. apply dom_insert_lookup_L. eauto.
Qed.

(** X16.  When the dimension loop returns, every index it read lay in
    [[0, index_upper_bound)], and [self] has exactly the cells it had: the
    loop writes nowhere else.  With a size that is not positive it returns
    [self] as it is. *)
Theorem dim_loop_stays_in_bounds
    (is_scatter_like : bool) self_data (self_dim_stride : Z) index_data
    (index_dim_stride : Z) src_data
    (src_dim_stride dim index_dim_size index_upper_bound : Z) f
    (self' : gmap Z scalar_t) :
  _cpu_scatter_gather_dim_loop is_scatter_like self_data self_dim_stride
    index_data index_dim_stride src_data src_dim_stride dim index_dim_size
    index_upper_bound f = Ok self' ->
  (forall i, 0 <= i < index_dim_size ->
     exists idx, index_data !! (i * index_dim_stride) = Some idx
                 /\ 0 <= idx < index_upper_bound)
  /\ dom self' = dom self_data
  /\ (index_dim_size <= 0 -> self' = self_data).
Proof.
  unfold _cpu_scatter_gather_dim_loop. intros Hloop.
  destruct (for_each_dim_loop_bounds _ _ _ _ _ _ _ _ _ _ _ Hloop)
    as [Hall Hdom].
  split; [|split; [exact Hdom|]].
  - intros i Hi. apply Hall. apply elem_of_irange. exact Hi.
  - intros Hn. unfold irange in Hloop.
    replace (Z.to_nat index_dim_size) with 0%nat in Hloop by lia.
    simpl in Hloop. congruence.
Qed.

(** X17.  An index out of bounds stops the loop with a failed
    [TORCH_CHECK]: when the iterations before position [i] go through and
    the index at [i] is negative or not below the bound, the loop over the
    whole dimension fails that check, whatever comes after. *)
Theorem dim_loop_rejects_index_out_of_bounds
    (is_scatter_like : bool) self_data (self_dim_stride : Z) index_data
    (index_dim_stride : Z) src_data
    (src_dim_stride dim index_dim_size index_upper_bound : Z) f
    (i idx : Z) :
  0 <= i < index_dim_size ->
  int64_min <= i * index_dim_stride <= int64_max ->
  index_data !! (i * index_dim_stride) = Some idx ->
  idx < 0 \/ index_upper_bound <= idx ->
  is_Ok (_cpu_scatter_gather_dim_loop is_scatter_like self_data
           self_dim_stride index_data index_dim_stride src_data
           src_dim_stride dim i index_upper_bound f) ->
  _cpu_scatter_gather_dim_loop is_scatter_like self_data self_dim_stride
    index_data index_dim_stride src_data src_dim_stride dim index_dim_size
    index_upper_bound f = Fatal CheckFailed.
Proof.
  intros Hi Hrange Hidx Hout Hprefix.
  unfold _cpu_scatter_gather_dim_loop in *.
  destruct (irange_split index_dim_size i Hi) as [rest ->].
  rewrite for_each_app.
  destruct (for_each _ (irange i) self_data) as [s1|]; simpl in *;
    [|contradiction].
  unfold dim_loop_body at 1. unfold mul64.
  replace ((int64_min <=? i * index_dim_stride)
           && (i * index_dim_stride <=? int64_max)) with true
    by (symmetry; apply andb_true_intro; split; lia).
  simpl. rewrite Hidx. simpl.
  replace ((0 <=? idx) && (idx <? index_upper_bound)) with false.
  - reflexivity.
  - symmetry. apply andb_false_iff. lia.
Qed.

Lemma stride_injective (stride a b : Z) :
  stride <> 0 -> a * stride = b * stride -> a = b.
Proof. intros Hs H. nia. Qed.

Lemma for_each_scatter
    f (self_dim_stride : Z) index_data (index_dim_stride : Z) src_data
    (src_dim_stride index_upper_bound : Z) (l : list Z) self_data
    (self' : gmap Z scalar_t) :
  self_dim_stride <> 0 ->
  for_each
    (dim_loop_body true f self_dim_stride index_data index_dim_stride
       src_data src_dim_stride index_upper_bound)
    l self_data = Ok self' ->
  (forall t,
     self' !! (t * self_dim_stride)
     = (fun s0 =>
          fold_left f
            (contributions index_data index_dim_stride src_data
               src_dim_stride t l) s0)
       <$> self_data !! (t * self_dim_stride))
  /\ (forall off,
        (forall t, 0 <= t < index_upper_bound ->
                   off <> t * self_dim_stride) ->
        self' !! off = self_data !! off).
Proof.
  intros Hstride. revert self_data.
  induction l as [|i l IH]; intros self_data; simpl.
  - intros [= <-]. split; [|reflexivity].
    intros t. destruct (self_data !! (t * self_dim_stride)); reflexivity.
  - destruct (dim_loop_body _ _ _ _ _ _ _ _ i self_data) as [s1|] eqn:Hb;
      simpl; [|discriminate].
    intros Hrest.
    destruct (dim_loop_body_Ok _ _ _ _ _ _ _ _ _ _ _ Hb)
      as (idx & s & x & Hidx & Hrange & Hs & Hx & ->).
    destruct (IH _ Hrest) as [Hacc Hother].
    split.
    + intros t. rewrite Hacc. unfold contributions at 2. simpl.
      rewrite Hidx.
      destruct (bool_decide (idx = t)) eqn:Ht.
      * apply bool_decide_eq_true_1 in Ht. subst t.
        rewrite Hx, lookup_insert_eq, Hs. reflexivity.
      * apply bool_decide_eq_false_1 in Ht.
        rewrite lookup_insert_ne; [reflexivity|].
        intros Heq. apply Ht.
        exact (stride_injective self_dim_stride idx t Hstride Heq).
    + intros off Hoff. rewrite (Hother off Hoff).
      apply lookup_insert_ne. intros Heq.
      exact (Hoff idx Hrange (eq_sym Heq)).
Qed.

(** X18.  Scatter along the dimension ([is_scatter_like] set, a stride of
    [self] other than 0): when the loop returns, the cell of [self] at row
    [t] holds its old value with the functor applied, in loop order, to
    every [src] cell whose index is [t]; cells at no row of the dimension
    are as they were.  For [TensorAssign] that is the last such [src] cell,
    if there is one. *)
Theorem scatter_accumulates_in_loop_order
    self_data (self_dim_stride : Z) index_data (index_dim_stride : Z)
    src_data (src_dim_stride dim index_dim_size index_upper_bound : Z) f
    (self' : gmap Z scalar_t) :
  self_dim_stride <> 0 ->
  _cpu_scatter_gather_dim_loop true self_data self_dim_stride index_data
    index_dim_stride src_data src_dim_stride dim index_dim_size
    index_upper_bound f = Ok self' ->
  (forall t,
     self' !! (t * self_dim_stride)
     = (fun s0 =>
          fold_left f
            (contributions index_data index_dim_stride src_data
               src_dim_stride t (irange index_dim_size)) s0)
       <$> self_data !! (t * self_dim_stride))
  /\ (forall off,
        (forall t, 0 <= t < index_upper_bound ->
                   off <> t * self_dim_stride) ->
        self' !! off = self_data !! off)
  /\ (forall (s0 : scalar_t) (cs : list scalar_t),
        fold_left TensorAssign cs s0 = List.last cs s0).
Proof.
  intros Hstride Hloop.
  destruct (for_each_scatter _ _ _ _ _ _ _ _ _ _ Hstride Hloop)
    as [Hacc Hother].
  split; [exact Hacc|]. split; [exact Hother|].
  intros s0 cs. revert s0.
  induction cs as [|c cs IH]; intros s0; [reflexivity|].
  simpl fold_left. rewrite IH. unfold TensorAssign.
  destruct cs as [|c' cs]; [reflexivity|].
  change (List.last (c :: c' :: cs) s0) with (List.last (c' :: cs) s0).
  apply last_default_irrelevant.
Qed.

Lemma for_each_gather
    f (self_dim_stride : Z) index_data (index_dim_stride : Z) src_data
    (src_dim_stride index_upper_bound : Z) (l : list Z) self_data
    (self' : gmap Z scalar_t) :
  self_dim_stride <> 0 ->
  NoDup l ->
  for_each
    (dim_loop_body false f self_dim_stride index_data index_dim_stride
       src_data src_dim_stride index_upper_bound)
    l self_data = Ok self' ->
  (forall i, i ∈ l ->
     exists idx s0 x,
       index_data !! (i * index_dim_stride) = Some idx
       /\ 0 <= idx < index_upper_bound
       /\ self_data !! (i * self_dim_stride) = Some s0
       /\ src_data !! (idx * src_dim_stride) = Some x
       /\ self' !! (i * self_dim_stride) = Some (f s0 x))
  /\ (forall off,
        (forall i, i ∈ l -> off <> i * self_dim_stride) ->
        self' !! off = self_data !! off).
Proof.
  intros Hstride. revert self_data.
  induction l as [|i0 l IH]; intros self_data Hnd; simpl.
  - intros [= <-]. split; [|reflexivity].
    intros i Hi. apply elem_of_nil in Hi. contradiction.
  - destruct (dim_loop_body _ _ _ _ _ _ _ _ i0 self_data) as [s1|] eqn:Hb;
      simpl; [|discriminate].
    intros Hrest.
    destruct (dim_loop_body_Ok _ _ _ _ _ _ _ _ _ _ _ Hb)
      as (idx & s & x & Hidx & Hrange & Hs & Hx & ->).
    apply NoDup_cons in Hnd as [Hnotin Hnd].
    destruct (IH _ Hnd Hrest) as [Hall Hother].
    split.
    + intros i Hi. apply elem_of_cons in Hi as [->|Hi].
      * exists idx, s, x.
        split; [exact Hidx|]. split; [exact Hrange|].
        split; [exact Hs|]. split; [exact Hx|].
        rewrite Hother.
        -- apply lookup_insert_eq.
        -- intros j Hj Heq.
           apply (stride_injective _ _ _ Hstride) in Heq. subst j.
           contradiction.
      * destruct (Hall i Hi) as (idx' & s' & x' & H1 & H2 & H3 & H4 & H5).
        exists idx', s', x'.
        split; [exact H1|]. split; [exact H2|].
        split; [|split; [exact H4 | exact H5]].
        rewrite lookup_insert_ne in H3; [exact H3|].
        intros Heq. apply (stride_injective _ _ _ Hstride) in Heq.
        subst i. contradiction.
    + intros off Hoff. rewrite Hother.
      * apply lookup_insert_ne. intros Heq.
        apply (Hoff i0); [left | symmetry; exact Heq].
      * intros i Hi. apply Hoff. right. exact Hi.
Qed.

(** X19.  Gather along the dimension ([is_scatter_like] clear, a stride of
    [self] other than 0): when the loop returns, row [i] of [self] holds
    the functor applied to its old value and the [src] cell at the row
    [index] names for [i] (for [TensorAssign]: that [src] cell), for every
    [i] below the size; all other cells of [self] are as they were. *)
Theorem gather_reads_indexed_rows
    self_data (self_dim_stride : Z) index_data (index_dim_stride : Z)
    src_data (src_dim_stride dim index_dim_size index_upper_bound : Z) f
    (self' : gmap Z scalar_t) :
  self_dim_stride <> 0 ->
  _cpu_scatter_gather_dim_loop false self_data self_dim_stride index_data
    index_dim_stride src_data src_dim_stride dim index_dim_size
    index_upper_bound f = Ok self' ->
  (forall i, 0 <= i < index_dim_size ->
     exists idx s0 x,
       index_data !! (i * index_dim_stride) = Some idx
       /\ 0 <= idx < index_upper_bound
       /\ self_data !! (i * self_dim_stride) = Some s0
       /\ src_data !! (idx * src_dim_stride) = Some x
       /\ self' !! (i * self_dim_stride) = Some (f s0 x))
  /\ (forall off,
        (forall i, 0 <= i < index_dim_size -> off <> i * self_dim_stride) ->
        self' !! off = self_data !! off).
Proof.
  intros Hstride Hloop.
  destruct (for_each_gather _ _ _ _ _ _ _ _ _ _ Hstride
              (NoDup_irange index_dim_size) Hloop) as [Hall Hother].
  split.
  - intros i Hi. apply Hall. apply elem_of_irange. exact Hi.
  - intros off Hoff. apply Hother.
    intros i Hi. apply Hoff. apply elem_of_irange. exact Hi.
Qed.

Lemma omap_single {A : Type} (g : Z -> option A) (l : list Z) (i : Z)
    (x : A) :
  NoDup l -> i ∈ l -> g i = Some x ->
  (forall j, j ∈ l -> j <> i -> g j = None) ->
  omap g l = [x].
Proof.
  induction l as [|j l IH]; intros Hnd Hi Hgi Hothers.
  - apply elem_of_nil in Hi. contradiction.
  - apply NoDup_cons in Hnd as [Hnotin Hnd]. simpl.
    destruct (decide (j = i)) as [->|Hne].
    + rewrite Hgi. f_equal.
      assert (Hnone : forall l', (forall k, k ∈ l' -> g k = None) ->
                                 omap g l' = []).
      { induction l' as [|k l' IHl']; intros Hk; [reflexivity|].
        simpl. rewrite (Hk k) by left. apply IHl'.
        intros k' Hk'. apply Hk. right. exact Hk'. }
      apply Hnone. intros k Hk. apply Hothers; [right; exact Hk|].
      intros ->. contradiction.
    + rewrite (Hothers j) by (try left; assumption).
      apply IH; try assumption.
      * apply elem_of_cons in Hi as [->|Hi]; [contradiction | exact Hi].
      * intros k Hk. apply Hothers. right. exact Hk.
Qed.

(** X20.  Gather undoes scatter: scatter [src] into [self] with
    [TensorAssign] under indices that are pairwise different, then gather
    from the result with the same indices into any buffer: when both loops
    return, row [i] of that buffer is row [i] of [src], for every [i] below
    the size. *)
Theorem gather_after_scatter
    self_data (self_dim_stride : Z) index_data (index_dim_stride : Z)
    src_data (src_dim_stride dim index_dim_size index_upper_bound : Z)
    (scattered out_data out' : gmap Z scalar_t) (out_dim_stride : Z) :
  self_dim_stride <> 0 ->
  out_dim_stride <> 0 ->
  (forall i j idx,
     0 <= i < index_dim_size -> 0 <= j < index_dim_size ->
     index_data !! (i * index_dim_stride) = Some idx ->
     index_data !! (j * index_dim_stride) = Some idx -> i = j) ->
  _cpu_scatter_gather_dim_loop true self_data self_dim_stride index_data
    index_dim_stride src_data src_dim_stride dim index_dim_size
    index_upper_bound TensorAssign = Ok scattered ->
  _cpu_scatter_gather_dim_loop false out_data out_dim_stride index_data
    index_dim_stride scattered self_dim_stride dim index_dim_size
    index_upper_bound TensorAssign = Ok out' ->
  forall i, 0 <= i < index_dim_size ->
    exists x, src_data !! (i * src_dim_stride) = Some x
              /\ out' !! (i * out_dim_stride) = Some x.
Proof.
  intros Hss Hos Hinj Hscatter Hgather i Hi.
  unfold _cpu_scatter_gather_dim_loop in *.
  destruct (for_each_gather _ _ _ _ _ _ _ _ _ _ Hos
              (NoDup_irange index_dim_size) Hgather) as [Hall _].
  destruct (Hall i (proj2 (elem_of_irange _ _) Hi))
    as (idx & o0 & y & Hidx & Hrange & Ho & Hy & Hout).
  destruct (for_each_scatter _ _ _ _ _ _ _ _ _ _ Hss Hscatter) as [Hacc _].
  pose proof (Hacc idx) as Hcell. rewrite Hy in Hcell.
  pose proof (for_each_dim_loop_bounds _ _ _ _ _ _ _ _ _ _ _ Hscatter)
    as [Hidxs _].
  assert (Hsrc : exists x, src_data !! (i * src_dim_stride) = Some x).
  { clear -Hscatter Hi.
    assert (H : forall (l : list Z) (m m' : gmap Z scalar_t),
              for_each
                (dim_loop_body true TensorAssign self_dim_stride index_data
                   index_dim_stride src_data src_dim_stride
                   index_upper_bound) l m = Ok m' ->
              forall k, k ∈ l ->
                exists x, src_data !! (k * src_dim_stride) = Some x).
    { induction l as [|k0 l IHl]; intros m m' Hm k Hk.
      - apply elem_of_nil in Hk. contradiction.
      - simpl in Hm.
        destruct (dim_loop_body _ _ _ _ _ _ _ _ k0 m) as [m1|] eqn:Hb;
          simpl in Hm; [|discriminate].
        apply elem_of_cons in Hk as [->|Hk]; [|eauto].
        destruct (dim_loop_body_Ok _ _ _ _ _ _ _ _ _ _ _ Hb)
          as (? & ? & x & _ & _ & _ & Hx & _).
        eauto. }
    apply (H _ _ _ Hscatter). apply elem_of_irange. exact Hi. }
  destruct Hsrc as [x Hx]. exists x. split; [exact Hx|].
  rewrite Hout. unfold TensorAssign at 1. f_equal.
  unfold contributions in Hcell.
  rewrite (omap_single _ (irange index_dim_size) i x) in Hcell.
  - destruct (self_data !! (idx * self_dim_stride)) as [s0|];
      simpl in Hcell; [|discriminate].
    injection Hcell as ->. reflexivity.
  - apply NoDup_irange.
  - apply elem_of_irange. exact Hi.
  - rewrite Hidx, bool_decide_eq_true_2 by reflexivity. exact Hx.
  - intros j Hj Hne.
    destruct (Hidxs j Hj) as (idx' & Hidx' & _). rewrite Hidx'.
    apply elem_of_irange in Hj.
    destruct (bool_decide (idx' = idx)) eqn:Hd; [|reflexivity].
    apply bool_decide_eq_true_1 in Hd. subst idx'.
    exfalso. apply Hne. exact (Hinj j i idx Hj Hi Hidx' Hidx).
Qed.

End DimLoopProperties.

(** * The model on concrete inputs *)

(** The constructors build the descriptors named above. *)
Example select_lo_constructed :
  ViewInfo_select (ops := sample_ops) kSelect (float_shape [10])
    (mkSelectInfo 0 0 5 1) = Ok select_lo
  /\ shape select_lo = float_shape [5].
Proof. split; reflexivity. Qed.

(** A write through [select_lo] on a root of shape [10], then a sync: the
    root becomes "root with the selected positions replaced by the
    value". *)
Example round_trip_through_select :
  Alias_SyncUpdateOperations (ops := sample_ops) sample_alias
  = Ok (SelectViewUpdate ltc_select_view_update (External 0) (External 1)
          0 0 5 1,
        synced_alias).
Proof. reflexivity. Qed.

(** Writes through two views are replayed in the order they were made. *)
Example two_views_in_order :
  let a := Alias_Update (Alias_Update synced_alias (External 2) [select_lo])
             (External 3) [select_hi] in
  let lower :=
    SelectViewUpdate ltc_select_view_update (root_ir_value_ synced_alias)
      (External 2) 0 0 5 1 in
  generation_ a = 3%N
  /\ length (updates_ a) = 2%nat
  /\ (let* p := Alias_SyncUpdateOperations (ops := sample_ops) a in Ok p.1)
     = Ok (SelectViewUpdate ltc_select_view_update lower (External 3)
             0 5 10 1).
Proof. repeat split. Qed.

(** Squeeze in second position: the value written back is built from the
    root alone. *)
Example squeeze_after_select :
  ApplyUpdate (ops := sample_ops) (External 0)
    {| ir_value := External 1;
       view_infos :=
         [select_lo;
          squeeze_descriptor kSqueeze (float_shape [5]) (float_shape [5]) 0]
    |}
  = Ok (SelectViewUpdate ltc_select_view_update (External 0)
          (Unsqueeze aten_unsqueeze (External 0) 0) 0 0 5 1).
Proof. reflexivity. Qed.

(** ** Instances of the conditional statements *)

Lemma Alias_Update_coalesces_or_appends_witness :
  (updates_ sample_alias
     = [] ++ [{| ir_value := External 1; view_infos := [select_lo] |}]
   /\ updates_ (Alias_Update sample_alias (External 2) [select_lo])
      = [{| ir_value := External 2; view_infos := [select_lo] |}])
  /\ ([select_lo] <> [select_hi]
      /\ updates_ (Alias_Update sample_alias (External 2) [select_hi])
         = [{| ir_value := External 1; view_infos := [select_lo] |};
            {| ir_value := External 2; view_infos := [select_hi] |}])
  /\ generation_ (Alias_Update sample_alias (External 2) [select_lo]) = 2%N.
Proof.
  split; [|split].
  - split; [reflexivity|].
    destruct (Alias_Update_coalesces_or_appends sample_alias (External 2)
                [select_lo]) as (_ & _ & Hco & _ & _).
    exact (proj1 (Hco [] _ eq_refl eq_refl)).
  - assert (Hne : [select_lo] <> [select_hi]) by (intros H; discriminate H).
    split; [exact Hne|].
    destruct (Alias_Update_coalesces_or_appends sample_alias (External 2)
                [select_hi]) as (_ & _ & _ & Hap & _).
    exact (Hap [] _ eq_refl Hne).
  - exact (proj1 (Alias_Update_coalesces_or_appends sample_alias (External 2)
                    [select_lo])).
Defined.

Lemma GetViewIrNode_cached_or_resynced_witness :
  (sample_heap !! alias_ view_hi = Some sample_alias
   /\ view_generation_ view_hi <> generation_ sample_alias
   /\ LazyView_GetViewIrNode (ops := sample_ops) view_hi sample_heap
      = Ok (ir_value_ view_hi_fresh, true, view_hi_fresh, synced_heap))
  /\ (synced_heap !! alias_ view_hi_fresh = Some synced_alias
      /\ ir_value_ view_hi_fresh <> NullValue
      /\ view_generation_ view_hi_fresh = generation_ synced_alias
      /\ LazyView_GetViewIrNode (ops := sample_ops) view_hi_fresh synced_heap
         = Ok (ir_value_ view_hi_fresh, false, view_hi_fresh, synced_heap))
  /\ (unwritten_heap !! alias_ view_hi = Some unwritten_alias
      /\ ir_value_ view_hi = NullValue
      /\ LazyView_GetViewIrNode (ops := sample_ops) view_hi unwritten_heap
         = Ok (Select aten_select (External 0) 0 5 10 1, true,
               resolved view_hi (Select aten_select (External 0) 0 5 10 1) 0,
               unwritten_heap)).
Proof.
  split; [|split].
  - assert (Hne : view_generation_ view_hi <> generation_ sample_alias)
      by (intros H; discriminate H).
    split; [reflexivity|]. split; [exact Hne|].
    rewrite (proj2 (GetViewIrNode_cached_or_resynced (ops := sample_ops)
                      view_hi sample_alias sample_heap eq_refl)
               (or_intror Hne)).
    reflexivity.
  - assert (Hval : ir_value_ view_hi_fresh <> NullValue)
      by (intros H; discriminate H).
    split; [reflexivity|]. split; [exact Hval|]. split; [reflexivity|].
    exact (proj1 (GetViewIrNode_cached_or_resynced (ops := sample_ops)
                    view_hi_fresh synced_alias synced_heap eq_refl)
             Hval eq_refl).
  - split; [reflexivity|]. split; [reflexivity|].
    rewrite (proj2 (GetViewIrNode_cached_or_resynced (ops := sample_ops)
                      view_hi unwritten_alias unwritten_heap eq_refl)
               (or_introl eq_refl)).
    reflexivity.
Defined.

(** The claim C4 as it stands fails for a view that has never been resolved
    on an alias that has never been written: the two generations are equal
    (both 0), there is no cached value, and [GetViewIrNode] recomputes and
    returns [true]. *)
Lemma GetViewIrNode_equal_generations_recomputes :
  unwritten_heap !! alias_ view_hi = Some unwritten_alias
  /\ view_generation_ view_hi = generation_ unwritten_alias
  /\ LazyView_GetViewIrNode (ops := sample_ops) view_hi unwritten_heap
     = Ok (Select aten_select (External 0) 0 5 10 1, true,
           resolved view_hi (Select aten_select (External 0) 0 5 10 1) 0,
           unwritten_heap)
  /\ ~ (view_generation_ view_hi = generation_ unwritten_alias ->
        LazyView_GetViewIrNode (ops := sample_ops) view_hi unwritten_heap
        = Ok (ir_value_ view_hi, false, view_hi, unwritten_heap)).
Proof.
  split; [reflexivity|]. split; [reflexivity|]. split; [reflexivity|].
  intros H. specialize (H eq_refl).
  assert (Hc : LazyView_GetViewIrNode (ops := sample_ops) view_hi
                 unwritten_heap
               = Ok (Select aten_select (External 0) 0 5 10 1, true,
                     resolved view_hi
                       (Select aten_select (External 0) 0 5 10 1) 0,
                     unwritten_heap)) by reflexivity.
  rewrite Hc in H. discriminate H.
Qed.



Lemma Update_makes_other_views_stale_witness :
  alias_ view_lo = alias_ view_hi_fresh
  /\ synced_heap !! alias_ view_hi_fresh = Some synced_alias
  /\ view_generation_ view_hi_fresh = generation_ synced_alias
  /\ (let a' := Alias_Update synced_alias (External 2) [select_lo] in
      let h' := <[7%N := a']> synced_heap in
      LazyView_Update view_lo (External 2) synced_heap = Ok h'
      /\ IsUpToDate view_hi_fresh a' = false
      /\ exists value B' h'',
           LazyView_GetViewIrNode (ops := sample_ops) view_hi_fresh h'
           = Ok (value, true, B', h'')).
Proof.
  split; [reflexivity|]. split; [reflexivity|]. split; [reflexivity|].
  destruct (Update_makes_other_views_stale (ops := sample_ops)
              view_lo view_hi_fresh synced_alias synced_heap (External 2)
              eq_refl eq_refl eq_refl) as (Hup & _ & Hstale & Hre & _).
  intros a' h'.
  split; [exact Hup|]. split; [exact Hstale|].
  eexists _, _, _.
  etransitivity; [exact Hre | reflexivity].
Defined.

Lemma kind_mismatch_and_unknown_kind_are_fatal_witness :
  (kPermute <> kSelect
   /\ ViewInfo_select (ops := sample_ops) kPermute (float_shape [10])
        (mkSelectInfo 0 0 5 1) = Fatal CheckFailed)
  /\ (kSelect <> kPermute
      /\ ViewInfo_permute (ops := sample_ops) kSelect (float_shape [2; 3])
           [1; 0] = Fatal CheckFailed)
  /\ (view_type unknown_descriptor = kOther 42
      /\ ApplyViewInfo (External 0) unknown_descriptor
         = Fatal (InternalAssertFailed "Invalid view type: " (Some 42))
      /\ backward_step (ops := sample_ops) (External 0) [External 0] 1
           unknown_descriptor (External 1)
         = Fatal (InternalAssertFailed "Invalid view type: " (Some 42))).
Proof.
  destruct (kind_mismatch_and_unknown_kind_are_fatal (ops := sample_ops))
    as (_ & Hperm & Hsel & _ & _ & _ & Hfwd & Hbwd & _).
  split; [|split].
  - assert (Hne : kPermute <> kSelect) by (intros H; discriminate H).
    split; [exact Hne|]. exact (Hsel _ _ _ Hne).
  - assert (Hne : kSelect <> kPermute) by (intros H; discriminate H).
    split; [exact Hne|]. exact (Hperm _ _ _ Hne).
  - split; [reflexivity|]. split.
    + exact (Hfwd (External 0) unknown_descriptor 42 eq_refl).
    + exact (Hbwd (External 0) [External 0] 1%nat unknown_descriptor
               (External 1) 42 eq_refl).
Defined.


(** ** Instances of the further conditional statements *)

Lemma forward_loop_records_prefixes_witness :
  let tmp := [External 0; Select aten_select (External 0) 0 0 5 1] in
  forward_loop [External 0] [select_lo] = Ok tmp
  /\ length tmp = 2%nat
  /\ view_loop (External 0) [select_lo] = vector_back tmp.
Proof.
  intros tmp.
  destruct (forward_loop_records_prefixes (External 0) [select_lo] tmp
              eq_refl) as (Hlen & _ & _ & Hlast).
  split; [reflexivity|]. split; [exact Hlen | exact Hlast].
Defined.

Lemma ApplyUpdate_app_witness :
  Forall (fun d => is_squeeze_kind d = false) [reshape_column]
  /\ ApplyUpdate (ops := sample_ops) (External 0)
       {| ir_value := External 1;
          view_infos := [select_lo] ++ [reshape_column] |}
     = Ok (SelectViewUpdate ltc_select_view_update (External 0)
             (View aten_view (External 1) [5]) 0 0 5 1).
Proof.
  assert (H : Forall (fun d => is_squeeze_kind d = false) [reshape_column])
    by (repeat constructor).
  split; [exact H|].
  etransitivity;
    [exact (ApplyUpdate_app (ops := sample_ops) (External 0) (External 1)
              [select_lo] [reshape_column] H)
    | reflexivity].
Defined.

Lemma NoOp_is_transparent_witness :
  view_type noop_descriptor = kNoOp
  /\ view_loop (External 0) ([select_lo] ++ noop_descriptor :: [reshape_column])
     = view_loop (External 0) ([select_lo] ++ [reshape_column])
  /\ ApplyUpdate (ops := sample_ops) (External 0)
       {| ir_value := External 1;
          view_infos := [select_lo] ++ noop_descriptor :: [reshape_column] |}
     = ApplyUpdate (ops := sample_ops) (External 0)
         {| ir_value := External 1;
            view_infos := [select_lo] ++ [reshape_column] |}.
Proof.
  split; [reflexivity|].
  exact (NoOp_is_transparent (ops := sample_ops) (External 0) (External 1)
           [select_lo] [reshape_column] noop_descriptor eq_refl).
Defined.

Lemma Alias_Update_interleaved_writes_kept_witness :
  [select_lo] <> [select_hi]
  /\ generation_
       (Alias_Update
          (Alias_Update (Alias_Update synced_alias (External 1) [select_lo])
             (External 2) [select_hi])
          (External 3) [select_lo])
     = 4%N.
Proof.
  assert (Hne : [select_lo] <> [select_hi]) by (intros H; discriminate H).
  split; [exact Hne|].
  exact (proj1 (Alias_Update_interleaved_writes_kept synced_alias
                  (External 1) (External 2) (External 3)
                  [select_lo] [select_hi] Hne)).
Defined.

Lemma sync_before_appended_write_witness :
  [select_lo] <> [select_hi]
  /\ Alias_SyncUpdateOperations (ops := sample_ops)
       (Alias_Update sample_alias (External 2) [select_hi])
     = (let* (_, synced) :=
              Alias_SyncUpdateOperations (ops := sample_ops) sample_alias in
        Alias_SyncUpdateOperations (ops := sample_ops)
          (Alias_Update synced (External 2) [select_hi])).
Proof.
  assert (Hne : [select_lo] <> [select_hi]) by (intros H; discriminate H).
  split; [exact Hne|].
  exact (sync_before_appended_write (ops := sample_ops) sample_alias
           (External 2) [select_hi] Hne).
Defined.

Lemma GetViewIrNode_frame_witness :
  LazyView_GetViewIrNode (ops := sample_ops) view_hi sample_heap
    = Ok (ir_value_ view_hi_fresh, true, view_hi_fresh, synced_heap)
  /\ view_infos_ view_hi_fresh = view_infos_ view_hi
  /\ alias_ view_hi_fresh = alias_ view_hi.
Proof.
  destruct (GetViewIrNode_frame (ops := sample_ops) view_hi sample_heap
              (ir_value_ view_hi_fresh) true view_hi_fresh synced_heap
              eq_refl) as (Hchain & _ & Halias & _).
  split; [reflexivity|]. split; [exact Hchain | exact Halias].
Defined.

Lemma cache_ok_view_hi : cache_ok view_hi sample_alias.
Proof. split; [discriminate | intros H; discriminate H]. Defined.

Lemma cache_ok_view_hi_fresh : cache_ok view_hi_fresh synced_alias.
Proof. split; [discriminate | intros _; split; reflexivity]. Defined.

Lemma GetViewIrNode_reads_replayed_root_witness :
  sample_heap !! alias_ view_hi = Some sample_alias
  /\ cache_ok view_hi sample_alias
  /\ LazyView_GetViewIrNode (ops := sample_ops) view_hi sample_heap
     = Ok (ir_value_ view_hi_fresh, true, view_hi_fresh, synced_heap)
  /\ exists root',
       replay_spec (ops := sample_ops) (root_ir_value_ sample_alias)
         (updates_ sample_alias) = Ok root'
       /\ forward_spec root' (view_infos_ view_hi)
          = Ok (ir_value_ view_hi_fresh).
Proof.
  split; [reflexivity|]. split; [exact cache_ok_view_hi|].
  split; [reflexivity|].
  exact (GetViewIrNode_reads_replayed_root (ops := sample_ops) view_hi
           sample_alias sample_heap (ir_value_ view_hi_fresh) true
           view_hi_fresh synced_heap eq_refl cache_ok_view_hi eq_refl).
Defined.

Lemma cache_ok_preserved_witness :
  alias_ view_lo = alias_ view_hi_fresh
  /\ synced_heap !! alias_ view_hi_fresh = Some synced_alias
  /\ cache_ok view_hi_fresh synced_alias
  /\ exists h' a',
       LazyView_Update view_lo (External 2) synced_heap = Ok h'
       /\ h' !! alias_ view_hi_fresh = Some a'
       /\ cache_ok view_hi_fresh a'.
Proof.
  split; [reflexivity|]. split; [reflexivity|].
  split; [exact cache_ok_view_hi_fresh|].
  destruct (cache_ok_preserved (ops := sample_ops) view_hi_fresh view_lo
              synced_alias synced_heap eq_refl eq_refl
              cache_ok_view_hi_fresh) as (Hupd & _ & _).
  destruct (Hupd (External 2) _ eq_refl) as (a' & Hl & Hok).
  eexists _, a'. split; [reflexivity|]. split; [exact Hl | exact Hok].
Defined.

Lemma sub_view_reads_parent_through_descriptor_witness :
  synced_heap !! alias_ view_hi_fresh = Some synced_alias
  /\ cache_ok view_hi_fresh synced_alias
  /\ (let* r :=
          LazyView_GetViewIrNode (ops := sample_ops)
            (LazyView_CreateSubView view_hi_fresh (float_shape [5; 1])
               reshape_column synced_heap).1 synced_heap in
        Ok (returned_value r))
     = Ok (View aten_view (ir_value_ view_hi_fresh) [5; 1]).
Proof.
  split; [reflexivity|]. split; [exact cache_ok_view_hi_fresh|].
  etransitivity;
    [exact (sub_view_reads_parent_through_descriptor (ops := sample_ops)
              view_hi_fresh synced_alias synced_heap (float_shape [5; 1])
              reshape_column eq_refl cache_ok_view_hi_fresh)
    | reflexivity].
Defined.

Lemma scatter_returns_scattered_cells :
  _cpu_scatter_gather_dim_loop true self_cells 1 index_cells 1 src_cells 1
    0 2 3 TensorAssign = Ok scattered_cells.
Proof. reflexivity. Defined.

Lemma dim_loop_stays_in_bounds_witness :
  _cpu_scatter_gather_dim_loop true self_cells 1 index_cells 1 src_cells 1
    0 2 3 TensorAssign = Ok scattered_cells
  /\ dom scattered_cells = dom self_cells.
Proof.
  split; [exact scatter_returns_scattered_cells|].
  exact (proj1 (proj2 (dim_loop_stays_in_bounds true self_cells 1
                         index_cells 1 src_cells 1 0 2 3 TensorAssign
                         scattered_cells scatter_returns_scattered_cells))).
Defined.

Lemma dim_loop_rejects_index_out_of_bounds_witness :
  bad_index_cells !! (1 * 1) = Some 5
  /\ _cpu_scatter_gather_dim_loop true self_cells 1 bad_index_cells 1
       src_cells 1 0 2 3 TensorAssign = Fatal CheckFailed.
Proof.
  split; [reflexivity|].
  apply (dim_loop_rejects_index_out_of_bounds true self_cells 1
           bad_index_cells 1 src_cells 1 0 2 3 TensorAssign 1 5).
  - lia.
  - unfold int64_min, int64_max. lia.
  - reflexivity.
  - right. lia.
  - exact I.
Defined.

Lemma scatter_accumulates_in_loop_order_witness :
  (1 : Z) <> 0
  /\ scattered_cells !! (2 * 1)
     = (fun s0 =>
          fold_left TensorAssign
            (contributions index_cells 1 src_cells 1 2 (irange 2)) s0)
       <$> self_cells !! (2 * 1).
Proof.
  assert (Hs : (1 : Z) <> 0) by lia.
  split; [exact Hs|].
  exact (proj1 (scatter_accumulates_in_loop_order self_cells 1 index_cells 1
                  src_cells 1 0 2 3 TensorAssign scattered_cells Hs
                  scatter_returns_scattered_cells) 2).
Defined.

Lemma gather_returns_src_cells :
  _cpu_scatter_gather_dim_loop false out_cells 1 index_cells 1
    scattered_cells 1 0 2 3 TensorAssign = Ok src_cells.
Proof. reflexivity. Defined.

Lemma gather_reads_indexed_rows_witness :
  (1 : Z) <> 0
  /\ exists idx s0 x,
       index_cells !! (1 * 1) = Some idx
       /\ 0 <= idx < 3
       /\ out_cells !! (1 * 1) = Some s0
       /\ scattered_cells !! (idx * 1) = Some x
       /\ src_cells !! (1 * 1) = Some (TensorAssign s0 x).
Proof.
  assert (Hs : (1 : Z) <> 0) by lia.
  split; [exact Hs|].
  apply (proj1 (gather_reads_indexed_rows out_cells 1 index_cells 1
                  scattered_cells 1 0 2 3 TensorAssign src_cells Hs
                  gather_returns_src_cells) 1).
  lia.
Defined.

Lemma index_cells_distinct (i j idx : Z) :
  0 <= i < 2 -> 0 <= j < 2 ->
  index_cells !! (i * 1) = Some idx ->
  index_cells !! (j * 1) = Some idx -> i = j.
Proof.
  intros Hi Hj.
  assert (Ei : i = 0 \/ i = 1) by lia.
  assert (Ej : j = 0 \/ j = 1) by lia.
  destruct Ei as [-> | ->], Ej as [-> | ->]; intros H1 H2;
    try reflexivity; vm_compute in H1, H2; congruence.
Defined.

Lemma gather_after_scatter_witness :
  _cpu_scatter_gather_dim_loop true self_cells 1 index_cells 1 src_cells 1
    0 2 3 TensorAssign = Ok scattered_cells
  /\ _cpu_scatter_gather_dim_loop false out_cells 1 index_cells 1
       scattered_cells 1 0 2 3 TensorAssign = Ok src_cells
  /\ exists x, src_cells !! (1 * 1) = Some x
               /\ src_cells !! (1 * 1) = Some x.
Proof.
  assert (Hs : (1 : Z) <> 0) by lia.
  split; [exact scatter_returns_scattered_cells|].
  split; [exact gather_returns_src_cells|].
  apply (gather_after_scatter self_cells 1 index_cells 1 src_cells 1 0 2 3
           scattered_cells out_cells src_cells 1 Hs Hs index_cells_distinct
           scatter_returns_scattered_cells gather_returns_src_cells 1).
  lia.
Defined.

Lemma ApplyUpdate_squeeze_chain_ignores_update_witness :
  let sq := squeeze_descriptor kSqueeze (float_shape [5]) (float_shape [5; 1])
              1 in
  is_squeeze_kind sq = true
  /\ ApplyUpdate (ops := sample_ops) (External 0)
       {| ir_value := External 1;
          view_infos := [reshape_column] ++ sq :: [noop_descriptor] |}
     = ApplyUpdate (ops := sample_ops) (External 0)
         {| ir_value := External 2;
            view_infos := [reshape_column] ++ sq :: [noop_descriptor] |}.
Proof.
  intros sq. split; [reflexivity|].
  exact (ApplyUpdate_squeeze_chain_ignores_update (ops := sample_ops)
           (External 0) (External 1) (External 2) [reshape_column]
           [noop_descriptor] sq eq_refl).
Defined.
